(** * disk_analyzer: recursive folder sizes and the per-directory report

    A shallow embedding of [get_folder_size] and [analyze_directory] of
    [disk_analyzer.py].

    The module [Snapshot] reads the two functions over a snapshot of the
    directory tree: every [os.DirEntry] carries the answers the operating
    system gives for it ([is_file()], [is_dir()], [stat().st_size] and
    [os.scandir(entry.path)]).  The module [IO] reads the same two functions
    over an opaque state of the operating system, with the four calls as
    state-passing primitives, to speak about what the functions do to that
    state.

    A call to the operating system returns or raises an [OSError], of
    which [PermissionError] is a subclass; [os.scandir] either raises or
    yields the whole listing.  The snapshot is a finite tree, and its
    functions always return; in [IO] the depth of the nested calls is
    bounded by a limit, and reaching it is an outcome of its own: the
    [RecursionError] of Python, which no handler of the source catches. *)

From Stdlib Require Import ZArith List String Ascii Bool Lia Sorted
  Permutation DecimalString.
Import ListNotations.
Open Scope string_scope.
Open Scope list_scope.
Open Scope Z_scope.

(** ** Exceptions and results *)

(** The two exception classes the source tells apart.  [PermissionError] is
    a subclass of [OSError]: an [except OSError] clause catches both. *)
Inductive exn_class : Type :=
| PermissionError
| OSError.

(** An exception value: its class and [str(e)]; [ExnFrom] is an exception
    raised with [raise ... from cause], which sets [__cause__]. *)
Inductive exn : Type :=
| Exn (cls : exn_class) (msg : string)
| ExnFrom (cls : exn_class) (msg : string) (cause : exn).

Definition exn_cls (e : exn) : exn_class :=
  match e with Exn c _ | ExnFrom c _ _ => c end.

Definition exn_str (e : exn) : string :=
  match e with Exn _ m | ExnFrom _ m _ => m end.

Definition exn_cause (e : exn) : option exn :=
  match e with Exn _ _ => None | ExnFrom _ _ c => Some c end.

(** The outcome of a call that may raise. *)
Inductive result (A : Type) : Type :=
| Ok (a : A)
| Raise (e : exn).

Arguments Ok {A} a.
Arguments Raise {A} e.

(** ** The items of the report *)

(** The dict appended to [items]: the keys [name], [size], [is_dir] and
    [path] are always present, the key [error] only in the two handlers. *)
Record item : Type := mkItem {
  name : string;
  size : Z;
  is_dir : bool;
  path : string;
  error : option string
}.

(** [items.sort(key=lambda x: x["size"], reverse=True)]: the sort of Python
    lists is stable, also with [reverse=True].  A stable sort has one
    possible outcome; it is computed here by insertion. *)
Fixpoint insert_desc (x : item) (l : list item) : list item :=
  match l with
  | [] => [x]
  | y :: r => if Z.leb (size y) (size x) then x :: y :: r else y :: insert_desc x r
  end.

Fixpoint sort_by_size_desc (l : list item) : list item :=
  match l with
  | [] => []
  | x :: r => insert_desc x (sort_by_size_desc r)
  end.

(** The order of the report: no item is smaller than a later one. *)
Definition by_size_desc (a b : item) : Prop := size b <= size a.

(** The items of one size, in the order of the list. *)
Definition of_size (s : Z) (l : list item) : list item :=
  filter (fun it => size it =? s) l.

(** The text of the exceptions [analyze_directory] raises. *)
Definition scan_error (directory_path : string) (e : exn) : exn :=
  match exn_cls e with
  | PermissionError =>
      ExnFrom PermissionError
              ("无法扫描目录 " ++ directory_path ++ ": 权限不足") e
  | OSError =>
      ExnFrom OSError
              ("无法扫描目录 " ++ directory_path ++ ": " ++ exn_str e) e
  end.

(** The value of the key [error] in the two inner handlers. *)
Definition item_error (e : exn) : string :=
  match exn_cls e with
  | PermissionError => "权限不足"
  | OSError => "OS错误: " ++ exn_str e
  end.

(** ** The directory tree as the two functions see it *)

Module Snapshot.

(** An [os.DirEntry] together with what the operating system answers for
    it: the attributes [name] and [path], the outcomes of [is_file()],
    [is_dir()] and [stat().st_size], each of which may raise, and the
    outcome of [os.scandir(entry.path)]. *)
#[local] Unset Elimination Schemes.
Inductive DirEntry : Type := mkDirEntry {
  entry_name : string;
  entry_path : string;
  entry_is_file : result bool;
  entry_is_dir : result bool;
  entry_st_size : result Z;
  entry_scandir : result (list DirEntry)
}.
#[local] Set Elimination Schemes.

(** The file system: what [os.scandir] answers for a path. *)
Definition filesystem : Type := string -> result (list DirEntry).

Section FolderSize.

(** The recursive call [get_folder_size(entry.path)]. *)
Variable size_of_entry : DirEntry -> result Z.

(** The [for] loop of [get_folder_size]; the value is [total_size] when
    control leaves the loop.  An exception of [is_file()] or [is_dir()]
    leaves the loop for the outer handlers, which [pass]; an exception of
    [stat()] or of the recursive call is passed over inside the loop. *)
Fixpoint scan_entries (entries : list DirEntry) (total_size : Z) : Z :=
  match entries with
  | [] => total_size
  | entry :: rest =>
      match entry_is_file entry with
      | Raise _ => total_size
      | Ok true =>
          match entry_st_size entry with
          | Ok n => scan_entries rest (total_size + n)
          | Raise _ => scan_entries rest total_size
          end
      | Ok false =>
          match entry_is_dir entry with
          | Raise _ => total_size
          | Ok true =>
              match size_of_entry entry with
              | Ok n => scan_entries rest (total_size + n)
              | Raise _ => scan_entries rest total_size
              end
          | Ok false => scan_entries rest total_size
          end
      end
  end.

(** The body of [get_folder_size], for a folder whose [os.scandir]
    answers [folder]. *)
Definition folder_size_body (folder : result (list DirEntry)) : result Z :=
  match folder with
  | Raise _ => Ok 0
  | Ok entries => Ok (scan_entries entries 0)
  end.

End FolderSize.

(** [get_folder_size(entry.path)] *)
Fixpoint get_entry_size (entry : DirEntry) : result Z :=
  folder_size_body get_entry_size (entry_scandir entry).

(** [get_folder_size(folder_path)], where [os.scandir(folder_path)] answers
    [folder]. *)
Definition get_folder_size (folder : result (list DirEntry)) : result Z :=
  folder_size_body get_entry_size folder.

(** The two branches of the inner [try] of [analyze_directory] that read
    the size of an entry. *)
Definition read_size (entry : DirEntry) (isd : bool) : result Z :=
  if isd then get_folder_size (entry_scandir entry)
  else entry_st_size entry.

(** The body of the [for] loop of [analyze_directory] for one entry.
    [is_dir()] is called before the inner [try]: its exception leaves the
    loop. *)
Definition analyze_entry (entry : DirEntry) : result item :=
  match entry_is_dir entry with
  | Raise e => Raise e
  | Ok isd =>
      match read_size entry isd with
      | Ok sz => Ok (mkItem (entry_name entry) sz isd (entry_path entry) None)
      | Raise e =>
          Ok (mkItem (entry_name entry) 0 isd (entry_path entry)
                     (Some (item_error e)))
      end
  end.

(** The [for] loop of [analyze_directory], appending to [items]. *)
Fixpoint analyze_entries (entries : list DirEntry) (items : list item)
  : result (list item) :=
  match entries with
  | [] => Ok items
  | entry :: rest =>
      match analyze_entry entry with
      | Raise e => Raise e
      | Ok it => analyze_entries rest (items ++ [it])
      end
  end.

(** [analyze_directory(directory_path)] *)
Definition analyze_directory (fs : filesystem) (directory_path : string)
  : result (list item) :=
  match fs directory_path with
  | Raise e => Raise (scan_error directory_path e)
  | Ok entries =>
      match analyze_entries entries [] with
      | Raise e => Raise (scan_error directory_path e)
      | Ok items => Ok (sort_by_size_desc items)
      end
  end.

(** *** Vocabulary of the properties *)

(** The value a call returned, 0 when it raised. *)
Definition value_of (r : result Z) : Z :=
  match r with Ok n => n | Raise _ => 0 end.

Definition sum_Z (l : list Z) : Z := fold_right Z.add 0 l.

(** [sizeOf(entry.path)] *)
Definition sizeOf (entry : DirEntry) : Z :=
  value_of (get_folder_size (entry_scandir entry)).

Definition is_regular_file (entry : DirEntry) : bool :=
  match entry_is_file entry with Ok true => true | _ => false end.

Definition is_subdirectory (entry : DirEntry) : bool :=
  match entry_is_dir entry with Ok true => true | _ => false end.

Definition byte_length (entry : DirEntry) : Z :=
  value_of (entry_st_size entry).

(** No access error at or beneath the entry, which is a regular file whose
    size can be read or a directory that can be listed and holds such
    entries only. *)
Fixpoint readable_entry (entry : DirEntry) : bool :=
  match entry_is_file entry, entry_is_dir entry with
  | Ok true, Ok false =>
      match entry_st_size entry with Ok _ => true | Raise _ => false end
  | Ok false, Ok true =>
      match entry_scandir entry with
      | Ok entries => forallb readable_entry entries
      | Raise _ => false
      end
  | _, _ => false
  end.

Definition readable_folder (folder : result (list DirEntry)) : bool :=
  match folder with
  | Ok entries => forallb readable_entry entries
  | Raise _ => false
  end.

(** The byte lengths of the regular files at or beneath an entry, in the
    order of a walk of the tree. *)
Fixpoint files_beneath (entry : DirEntry) : list Z :=
  match entry_is_dir entry with
  | Ok true =>
      match entry_scandir entry with
      | Ok entries => flat_map files_beneath entries
      | Raise _ => []
      end
  | _ =>
      match entry_st_size entry with Ok n => [n] | Raise _ => [] end
  end.

(** The true recursive size of an entry. *)
Definition true_size (entry : DirEntry) : Z := sum_Z (files_beneath entry).

(** The byte lengths that can be read at or beneath an entry: those of
    the regular files whose [stat()] answers, in the directories that can
    be listed. *)
Fixpoint sizes_read_beneath (entry : DirEntry) : list Z :=
  match entry_is_file entry with
  | Ok true =>
      match entry_st_size entry with Ok n => [n] | Raise _ => [] end
  | _ =>
      match entry_is_dir entry with
      | Ok true =>
          match entry_scandir entry with
          | Ok entries => flat_map sizes_read_beneath entries
          | Raise _ => []
          end
      | _ => []
      end
  end.

(** [is_file()] answers for the entry, [is_dir()] too when the entry is not
    a regular file, and so for every entry beneath it. *)
Fixpoint kinds_known (entry : DirEntry) : bool :=
  match entry_is_file entry with
  | Ok true => true
  | Ok false =>
      match entry_is_dir entry with Ok _ => true | Raise _ => false end
  | Raise _ => false
  end
  && match entry_scandir entry with
     | Ok entries => forallb kinds_known entries
     | Raise _ => true
     end.

(** Every size the file system reports at or beneath the entry is a count
    of bytes. *)
Fixpoint sizes_nonneg (entry : DirEntry) : bool :=
  match entry_st_size entry with Ok n => 0 <=? n | Raise _ => true end
  && match entry_scandir entry with
     | Ok entries => forallb sizes_nonneg entries
     | Raise _ => true
     end.

(** The size the report gives for [entry], when it has an item for it. *)
Definition reported (items : list item) (entry : DirEntry) (it : item) : Prop :=
  In it items /\ name it = entry_name entry /\ path it = entry_path entry.

(** *** Sample trees *)

Definition denied (p : string) : exn :=
  Exn PermissionError ("[Errno 13] Permission denied: '" ++ p ++ "'").

Definition not_a_directory (p : string) : exn :=
  Exn OSError ("[Errno 20] Not a directory: '" ++ p ++ "'").

Definition regular_file (n p : string) (sz : Z) : DirEntry :=
  mkDirEntry n p (Ok true) (Ok false) (Ok sz) (Raise (not_a_directory p)).

Definition directory (n p : string) (folder : result (list DirEntry))
  : DirEntry :=
  mkDirEntry n p (Ok false) (Ok true) (Ok 4096) folder.

Definition no_such_file (p : string) : exn :=
  Exn OSError ("[Errno 2] No such file or directory: '" ++ p ++ "'").

Section FirstSome.

Context {A B : Type} (f : A -> option B).

Fixpoint first_some (l : list A) : option B :=
  match l with
  | [] => None
  | x :: r => match f x with Some b => Some b | None => first_some r end
  end.

End FirstSome.

(** What [os.scandir(p)] answers when [p] is the path of [entry] or of an
    entry beneath it. *)
Fixpoint listing_at (p : string) (entry : DirEntry)
  : option (result (list DirEntry)) :=
  if String.eqb p (entry_path entry) then Some (entry_scandir entry)
  else match entry_scandir entry with
       | Ok entries => first_some (listing_at p) entries
       | Raise _ => None
       end.

(** The file system that holds the tree [folder] at the path [root] and
    nothing else. *)
Definition mount (root : string) (folder : result (list DirEntry))
  : filesystem :=
  fun p =>
    if String.eqb p root then folder
    else match folder with
         | Ok entries =>
             match first_some (listing_at p) entries with
             | Some answer => answer
             | None => Raise (no_such_file p)
             end
         | Raise _ => Raise (no_such_file p)
         end.

(** [root/] holds [a.txt] (10 bytes), [b.txt] (20 bytes) and [sub/], which
    holds [c.txt] (5 bytes). *)
Definition sub_folder : list DirEntry :=
  [regular_file "c.txt" "root/sub/c.txt" 5].

Definition root_folder : list DirEntry :=
  [regular_file "a.txt" "root/a.txt" 10;
   regular_file "b.txt" "root/b.txt" 20;
   directory "sub" "root/sub" (Ok sub_folder)].

(** [top/] holds [A/], which may not be listed, and [B/], which holds
    what [root/] holds. *)
Definition sibling_A : DirEntry :=
  directory "A" "top/A" (Raise (denied "top/A")).

Definition sibling_B : DirEntry :=
  directory "B" "top/B" (Ok root_folder).

Definition top_fs : filesystem := mount "top" (Ok [sibling_A; sibling_B]).

(** [vault/] holds one directory, [private/], which may not be listed. *)
Definition private_dir : DirEntry :=
  directory "private" "vault/private" (Raise (denied "vault/private")).

Definition vault_fs : filesystem := mount "vault" (Ok [private_dir]).

(** [home/] can be listed and holds a file and a symbolic link whose target
    may not be examined: [is_file()], [is_dir()] and [stat()] raise
    [PermissionError] for it. *)
Definition dangling_link : DirEntry :=
  let e := denied "home/link" in
  mkDirEntry "link" "home/link" (Raise e) (Raise e) (Raise e) (Raise e).

Definition home_fs : filesystem :=
  mount "home" (Ok [regular_file "notes.txt" "home/notes.txt" 7;
                   dangling_link]).

(** [data/] holds an empty directory and one that may not be listed. *)
Definition empty_dir : DirEntry := directory "empty" "data/empty" (Ok []).

Definition locked_dir : DirEntry :=
  directory "locked" "data/locked" (Raise (denied "data/locked")).

Definition data_fs : filesystem := mount "data" (Ok [empty_dir; locked_dir]).

(** [d/] holds four files of 300, 100, 300 and 0 bytes, listed in this
    order. *)
Definition four_files : list DirEntry :=
  [regular_file "w" "d/w" 300; regular_file "x" "d/x" 100;
   regular_file "y" "d/y" 300; regular_file "z" "d/z" 0].

Definition four_fs : filesystem := mount "d" (Ok four_files).

(** A file whose size may not be read. *)
Definition unreadable_file (n p : string) : DirEntry :=
  mkDirEntry n p (Ok true) (Ok false) (Raise (denied p))
             (Raise (not_a_directory p)).

(** [photos/] holds a directory that may not be listed, a file whose size
    may not be read and a file of 12 bytes. *)
Definition album_dir : DirEntry :=
  directory "album" "photos/album" (Raise (denied "photos/album")).

Definition photos_fs : filesystem :=
  mount "photos" (Ok [album_dir;
                      unreadable_file "raw.bin" "photos/raw.bin";
                      regular_file "note.txt" "photos/note.txt" 12]).

(** *** The report marks the directories it could not list

    Every subdirectory of [directory_path] whose listing fails has its item
    in the report marked with the key [error]. *)
Definition unlistable_marked (fs : filesystem) (directory_path : string)
  : Prop :=
  forall entries items child it,
    fs directory_path = Ok entries ->
    analyze_directory fs directory_path = Ok items ->
    In child entries ->
    entry_is_dir child = Ok true ->
    (exists e, entry_scandir child = Raise e) ->
    reported items child it ->
    error it <> None.

End Snapshot.

(** ** The two functions over the state of the operating system *)

Module IO.

(** The calls the source makes to the operating system, over a state
    [world]: each takes the state and gives an outcome and the state after
    the call.  [DirEntry] is the type of the objects [os.scandir] yields. *)
Record OS (world DirEntry : Type) : Type := mkOS {
  os_scandir : string -> world -> result (list DirEntry) * world;
  entry_is_file : DirEntry -> world -> result bool * world;
  entry_is_dir : DirEntry -> world -> result bool * world;
  entry_st_size : DirEntry -> world -> result Z * world;
  entry_name : DirEntry -> string;
  entry_path : DirEntry -> string
}.

Arguments os_scandir {world DirEntry} _ _ _.
Arguments entry_is_file {world DirEntry} _ _ _.
Arguments entry_is_dir {world DirEntry} _ _ _.
Arguments entry_st_size {world DirEntry} _ _ _.
Arguments entry_name {world DirEntry} _ _.
Arguments entry_path {world DirEntry} _ _.

(** A call leaves the state as it finds it. *)
Definition preserves {world A B : Type} (f : A -> world -> B * world) : Prop :=
  forall a w, snd (f a w) = w.

(** The four calls are queries. *)
Definition read_only {world DirEntry : Type} (sys : OS world DirEntry) : Prop :=
  preserves (os_scandir sys) /\ preserves (entry_is_file sys) /\
  preserves (entry_is_dir sys) /\ preserves (entry_st_size sys).

Section Program.

Context {world DirEntry : Type} (sys : OS world DirEntry).

(** A computation of the program: [None] is the recursion limit reached
    (a [RecursionError], which no handler of the source catches),
    [Some r] an outcome [r]. *)
Definition M (A : Type) : Type := world -> option (result A) * world.

Section Loop.

(** The recursive call [get_folder_size(entry.path)]. *)
Variable size_of_path : string -> M Z.

(** The [for] loop of [get_folder_size]: [Some total_size] when control
    leaves the loop, by its end or by an [OSError]. *)
Fixpoint scan_entries (entries : list DirEntry) (total_size : Z)
         (w : world) : option Z * world :=
  match entries with
  | [] => (Some total_size, w)
  | entry :: rest =>
      match entry_is_file sys entry w with
      | (Raise _, w1) => (Some total_size, w1)
      | (Ok true, w1) =>
          match entry_st_size sys entry w1 with
          | (Ok n, w2) => scan_entries rest (total_size + n) w2
          | (Raise _, w2) => scan_entries rest total_size w2
          end
      | (Ok false, w1) =>
          match entry_is_dir sys entry w1 with
          | (Raise _, w2) => (Some total_size, w2)
          | (Ok true, w2) =>
              match size_of_path (entry_path sys entry) w2 with
              | (None, w3) => (None, w3)
              | (Some (Ok n), w3) => scan_entries rest (total_size + n) w3
              | (Some (Raise _), w3) => scan_entries rest total_size w3
              end
          | (Ok false, w2) => scan_entries rest total_size w2
          end
      end
  end.

End Loop.

(** [get_folder_size(folder_path)], with [limit] nested calls left. *)
Fixpoint get_folder_size (limit : nat) (folder_path : string) : M Z :=
  match limit with
  | O => fun w => (None, w)
  | S limit' =>
      fun w =>
        match os_scandir sys folder_path w with
        | (Raise _, w1) => (Some (Ok 0), w1)
        | (Ok entries, w1) =>
            match scan_entries (get_folder_size limit') entries 0 w1 with
            | (None, w2) => (None, w2)
            | (Some total_size, w2) => (Some (Ok total_size), w2)
            end
        end
  end.

(** The body of the [for] loop of [analyze_directory] for one entry. *)
Definition analyze_entry (limit : nat) (entry : DirEntry) : M item :=
  fun w =>
    match entry_is_dir sys entry w with
    | (Raise e, w1) => (Some (Raise e), w1)
    | (Ok isd, w1) =>
        let done sz :=
          Ok (mkItem (entry_name sys entry) sz isd (entry_path sys entry)
                     None) in
        let failed e :=
          Ok (mkItem (entry_name sys entry) 0 isd (entry_path sys entry)
                     (Some (item_error e))) in
        if isd then
          match get_folder_size limit (entry_path sys entry) w1 with
          | (None, w2) => (None, w2)
          | (Some (Ok sz), w2) => (Some (done sz), w2)
          | (Some (Raise e), w2) => (Some (failed e), w2)
          end
        else
          match entry_st_size sys entry w1 with
          | (Ok sz, w2) => (Some (done sz), w2)
          | (Raise e, w2) => (Some (failed e), w2)
          end
    end.

(** The [for] loop of [analyze_directory], appending to [items]. *)
Fixpoint analyze_entries (limit : nat) (entries : list DirEntry)
         (items : list item) : M (list item) :=
  fun w =>
    match entries with
    | [] => (Some (Ok items), w)
    | entry :: rest =>
        match analyze_entry limit entry w with
        | (None, w1) => (None, w1)
        | (Some (Raise e), w1) => (Some (Raise e), w1)
        | (Some (Ok it), w1) => analyze_entries limit rest (items ++ [it]) w1
        end
    end.

(** [analyze_directory(directory_path)] *)
Definition analyze_directory (limit : nat) (directory_path : string)
  : M (list item) :=
  fun w =>
    match os_scandir sys directory_path w with
    | (Raise e, w1) => (Some (Raise (scan_error directory_path e)), w1)
    | (Ok entries, w1) =>
        match analyze_entries limit entries [] w1 with
        | (None, w2) => (None, w2)
        | (Some (Raise e), w2) =>
            (Some (Raise (scan_error directory_path e)), w2)
        | (Some (Ok items), w2) => (Some (Ok (sort_by_size_desc items)), w2)
        end
    end.

End Program.

(** The operating system that answers as a snapshot records: the state is
    the table of the listings, a call looks its answer up. *)
Definition of_snapshot : OS Snapshot.filesystem Snapshot.DirEntry :=
  {| os_scandir := fun p fs => (fs p, fs);
     entry_is_file := fun e fs => (Snapshot.entry_is_file e, fs);
     entry_is_dir := fun e fs => (Snapshot.entry_is_dir e, fs);
     entry_st_size := fun e fs => (Snapshot.entry_st_size e, fs);
     entry_name := Snapshot.entry_name;
     entry_path := Snapshot.entry_path |}.

(** *** Snapshots of an operating system *)

(** The snapshot of [entry] records what the file system [fs] answers at
    and beneath its path. *)
#[local] Unset Elimination Schemes.
Inductive recorded (fs : Snapshot.filesystem) : Snapshot.DirEntry -> Prop :=
| recorded_entry entry :
    fs (Snapshot.entry_path entry) = Snapshot.entry_scandir entry ->
    (forall entries, Snapshot.entry_scandir entry = Ok entries ->
                     Forall (recorded fs) entries) ->
    recorded fs entry.
#[local] Set Elimination Schemes.

(** The number of nested calls of [get_folder_size] an entry needs. *)
Fixpoint depth (entry : Snapshot.DirEntry) : nat :=
  match Snapshot.entry_scandir entry with
  | Ok entries => S (list_max (map depth entries))
  | Raise _ => 1
  end.

Definition folder_depth (folder : result (list Snapshot.DirEntry)) : nat :=
  match folder with
  | Ok entries => S (list_max (map depth entries))
  | Raise _ => 1
  end.

End IO.

(** ** The drives of the machine *)

Module Drives.

(** What [get_available_drives] consults: [sys.platform],
    [os.path.exists], which answers [False] where the system call fails,
    and [os.path.ismount], which may raise. *)
Record host : Type := mkHost {
  platform : string;
  path_exists : string -> bool;
  path_ismount : string -> result bool
}.

(** [string.ascii_uppercase] *)
Definition ascii_uppercase : list ascii :=
  list_ascii_of_string "ABCDEFGHIJKLMNOPQRSTUVWXYZ".

(** ['%s:' % d] *)
Definition drive_name (d : ascii) : string := String d ":".

(** [drive + '\\'] *)
Definition drive_root (drive : string) : string := (drive ++ "\")%string.

(** The [for] loop over [available_drives], appending to [drives]; an
    [OSError] of [os.path.ismount] is passed over. *)
Fixpoint mounted_drives (h : host) (available_drives drives : list string)
  : list string :=
  match available_drives with
  | [] => drives
  | drive :: rest =>
      match path_ismount h (drive_root drive) with
      | Ok true => mounted_drives h rest (drives ++ [drive_root drive])
      | Ok false => mounted_drives h rest drives
      | Raise _ => mounted_drives h rest drives
      end
  end.

(** [get_available_drives()]: the list returned and the lines printed. *)
Definition get_available_drives (h : host) : list string * list string :=
  if String.eqb (platform h) "win32" then
    let available_drives :=
      map drive_name
          (filter (fun d => path_exists h (drive_name d)) ascii_uppercase) in
    (mounted_drives h available_drives [], [])
  else
    ([], ["当前仅支持 Windows 系统。"]).

(** [os.path.ismount] answers [True] for the root of the drive. *)
Definition is_mounted (h : host) (drive : string) : bool :=
  match path_ismount h (drive_root drive) with
  | Ok true => true
  | _ => false
  end.

(** The roots of the 26 drive letters, from [A:\] to [Z:\]. *)
Definition all_roots : list string :=
  map (fun d => drive_root (drive_name d)) ascii_uppercase.

(** A machine with a disk at [C:], a drive at [D:] that cannot be examined
    and a drive letter [E:] that exists and is no mount point. *)
Definition sample_host : host :=
  {| platform := "win32";
     path_exists := fun p =>
       String.eqb p "C:" || String.eqb p "D:" || String.eqb p "E:";
     path_ismount := fun p =>
       if String.eqb p "C:\" then Ok true
       else if String.eqb p "D:\" then
         Raise (Exn PermissionError "[WinError 5] Access is denied: 'D:\\'")
       else Ok false |}.

End Drives.

(** ** Sizes for the reader *)

Module Format.

(** [str(n)] of an integer. *)
Definition str (n : Z) : string := NilZero.string_of_int (Z.to_int n).

(** The quotient of [a] by [b > 0] rounded to the nearest integer, a tie
    to the even one. *)
Definition div_half_even (a b : Z) : Z :=
  let q := a / b in
  let r := a mod b in
  if 2 * r <? b then q
  else if b <? 2 * r then q + 1
  else if Z.even q then q else q + 1.

(** The integer with at most 53 significant bits nearest to [x > 0], a tie
    to the even one: the significand of [float(x)]. *)
Definition round53 (x : Z) : Z :=
  let bits := Z.log2 x + 1 in
  if bits <=? 53 then x
  else let s := bits - 53 in div_half_even x (2 ^ s) * 2 ^ s.

(** A float that is [num / 2 ^ scale]. *)
Record float : Type := mkFloat { num : Z; scale : Z }.

(** [x / 1024 ** j] for integers [x >= 1024 ** j], with [scale = 10 * j]:
    the true division of integers gives the float nearest to the quotient,
    and the division by a power of two changes the exponent only;
    [None] is the [OverflowError] of a quotient beyond the floats. *)
Definition true_div_pow2 (x scale : Z) : option float :=
  let m := round53 x in
  if m <? 2 ^ (1024 + scale) then Some (mkFloat m scale) else None.

(** The value of a float in hundredths, rounded as [format(v, '.2f')]
    rounds: to the nearest, a tie to the even one, on the exact value. *)
Definition hundredths (v : float) : Z :=
  div_half_even (100 * num v) (2 ^ scale v).

(** The text of [h] hundredths, [h >= 0], with two decimals. *)
Definition fixed2 (h : Z) : string :=
  let d := h mod 100 in
  (str (h / 100) ++ "." ++
   (if Z.ltb d 10 then "0" ++ str d else str d))%string.

(** [f"{x / 1024 ** j:.2f}"] followed by the unit. *)
Definition in_unit (x scale : Z) (unit : string) : option string :=
  match true_div_pow2 x scale with
  | Some v => Some (fixed2 (hundredths v) ++ unit)%string
  | None => None
  end.

(** [format_size(size_bytes)] for an integer; [None] is [OverflowError]. *)
Definition format_size (size_bytes : Z) : option string :=
  if size_bytes <? 1024 then Some (str size_bytes ++ " B")%string
  else if size_bytes <? 1024 ^ 2 then in_unit size_bytes 10 " KB"
  else if size_bytes <? 1024 ^ 3 then in_unit size_bytes 20 " MB"
  else in_unit size_bytes 30 " GB".

(** The unit [format_size] shows a size in and the power of two it divides
    by. *)
Definition unit_of (x : Z) : string * Z :=
  if x <? 1024 then (" B", 0)
  else if x <? 1024 ^ 2 then (" KB", 10)
  else if x <? 1024 ^ 3 then (" MB", 20)
  else (" GB", 30).

(** The figure [format_size] shows before the unit, in hundredths. *)
Definition figure (x : Z) : Z :=
  div_half_even (100 * x) (2 ^ snd (unit_of x)).

End Format.

(** ** The window *)

Module Gui.

(** A line feed. *)
Definition nl : string := String (ascii_of_nat 10) EmptyString.

(** *** The order of the size column *)

(** What [lessThan] reads of a model index: its column and, under
    [UserRole], a number or nothing that is one. *)
Record index : Type := mkIndex {
  column : nat;
  user_data : option Z
}.

(** [SizeSortFilterProxyModel.lessThan(left, right)]; [inherited] is
    [super().lessThan]. *)
Definition lessThan (inherited : index -> index -> bool)
           (left right : index) : bool :=
  if Nat.eqb (column left) 1 && Nat.eqb (column right) 1 then
    match user_data left, user_data right with
    | Some l, Some r => l <? r
    | Some _, None => true
    | None, Some _ => false
    | None, None => inherited left right
    end
  else inherited left right.

(** *** The worker *)

(** The signal [AnalysisWorker.run] emits. *)
Inductive signal : Type :=
| finished (items : list item) (path : string)
| error_signal (message : string) (path : string).

(** [AnalysisWorker.run()] for the worker of [path]. *)
Definition run (fs : Snapshot.filesystem) (path : string) : signal :=
  match Snapshot.analyze_directory fs path with
  | Ok items => finished items path
  | Raise e =>
      match exn_cls e with
      | PermissionError => error_signal ("权限错误: " ++ exn_str e) path
      | OSError => error_signal ("分析时出错: " ++ exn_str e) path
      end
  end.

(** *** The rows of the tree view *)

(** A row of the source model: the texts of its four cells and the number
    stored with the size cell under [UserRole]. *)
Record row : Type := mkRow {
  name_text : string;
  size_text : string;
  size_key : Z;
  type_text : string;
  path_text : string
}.

(** [item.get('error', False)] as a condition: an empty text is false. *)
Definition has_error (it : item) : bool :=
  match error it with
  | Some text => negb (String.eqb text "")
  | None => false
  end.

Definition inaccessible_mark : string := "(无法访问)".

Definition folder_type : string := "文件夹".

(** The row [update_treeview] builds for an item; [None] is the
    [OverflowError] of [format_size]. *)
Definition row_of_item (it : item) : option row :=
  let item_type := if is_dir it then folder_type else "文件" in
  let display_name :=
    (name it ++ " " ++ (if has_error it then inaccessible_mark else ""))%string
  in
  let key := if has_error it then -1 else size it in
  match (if has_error it then Some "N/A" else Format.format_size (size it)) with
  | Some formatted_size =>
      Some (mkRow display_name formatted_size key item_type (path it))
  | None => None
  end.

(** The model index of the size cell of a row: the cell is in column 1
    and holds [size_key] under [UserRole]. *)
Definition size_index (r : row) : index := mkIndex 1 (Some (size_key r)).

(** The [for] loop of [update_treeview], appending to the rows of the
    model; [false] when it is left by an exception. *)
Fixpoint append_rows (items : list item) (rows : list row)
  : list row * bool :=
  match items with
  | [] => (rows, true)
  | it :: rest =>
      match row_of_item it with
      | Some r => append_rows rest (rows ++ [r])
      | None => (rows, false)
      end
  end.

(** *** The state of the window *)

(** A message box: its kind, its title and its text. *)
Inductive box_kind : Type := critical | warning.

Record message_box : Type := mkBox {
  kind : box_kind;
  title : string;
  text : string
}.

(** What the methods below read and write of the window, the boxes shown
    and the paths of the workers started, the latest last. *)
Record window : Type := mkWindow {
  current_path : string;
  path_history : list string;
  path_lineedit : string;
  rows : list row;
  status : string;
  drive_enabled : bool;
  refresh_enabled : bool;
  up_enabled : bool;
  boxes : list message_box;
  workers : list string
}.

(** The window after [__init__], when drives were found: the history is
    empty, only the combo box of the drives is enabled and no box was
    shown. *)
Definition initial : window :=
  mkWindow "" [] "" [] "请选择一个驱动器开始分析。" true false false [] [].

Definition placeholder : string := "请选择驱动器…".

Definition welcome : string :=
  "欢迎使用磁盘空间分析器！" ++ nl ++ nl ++
  "本软件可帮助您快速分析各个磁盘或文件夹的空间占用情况。" ++ nl ++
  "请选择上方的驱动器后开始分析。" ++ nl ++ nl ++
  "功能简介：" ++ nl ++
  "- 直观展示各文件夹/文件大小" ++ nl ++
  "- 支持排序、刷新、导航" ++ nl ++
  "- 友好的操作体验" ++ nl ++ nl ++
  "感谢您的使用！".

Definition show_box (b : message_box) (w : window) : window :=
  mkWindow (current_path w) (path_history w) (path_lineedit w) (rows w)
           (status w) (drive_enabled w) (refresh_enabled w) (up_enabled w)
           (boxes w ++ [b]) (workers w).

(** [set_controls_enabled(enabled)] *)
Definition set_controls_enabled (enabled : bool) (w : window) : window :=
  let is_root := (List.length (path_history w) <=? 1)%nat in
  mkWindow (current_path w) (path_history w) (path_lineedit w) (rows w)
           (status w) enabled enabled (enabled && negb is_root)
           (boxes w) (workers w).

Section Navigation.

(** [os.path.normpath] and [os.path.isdir]. *)
Variable normpath : string -> string.
Variable isdir : string -> bool.

(** [navigate_to(path)] *)
Definition navigate_to (path : string) (w : window) : window :=
  let path := normpath path in
  if negb (isdir path) then
    let w1 :=
      show_box (mkBox critical "错误" ("路径无效或不是目录：" ++ nl ++ path)) w in
    mkWindow (current_path w1) (path_history w1)
             (match path_history w1 with [] => "" | _ => last (path_history w1) "" end)
             (rows w1) (status w1) (drive_enabled w1) (refresh_enabled w1)
             (up_enabled w1) (boxes w1) (workers w1)
  else
    set_controls_enabled false
      (mkWindow path (path_history w) path []
                ("正在分析 " ++ path ++ " ... 请稍候。")
                (drive_enabled w) (refresh_enabled w) (up_enabled w)
                (boxes w) (workers w ++ [path])).

(** [on_drive_selected(index)], where the combo box has [selected_drive]
    at [index]: the empty text at the index -1 of no selection. *)
Definition on_drive_selected (index : Z) (selected_drive : string)
           (w : window) : window :=
  if Z.eqb index 0 || String.eqb selected_drive placeholder then
    mkWindow "" [] "" [] welcome (drive_enabled w) (refresh_enabled w)
             (up_enabled w) (boxes w) (workers w)
  else if negb (String.eqb selected_drive "") then
    navigate_to selected_drive
      (mkWindow (current_path w) [selected_drive] (path_lineedit w) (rows w)
                (status w) (drive_enabled w) (refresh_enabled w)
                (up_enabled w) (boxes w) (workers w))
  else w.

(** [mark in text] *)
Definition contains (mark text : string) : bool :=
  match String.index 0 mark text with Some _ => true | None => false end.

(** [on_item_double_click(index)] on the row [r] of the source model;
    [None] is an index that is not valid. *)
Definition on_item_double_click (r : option row) (w : window) : window :=
  match r with
  | None => w
  | Some r =>
      if String.eqb (type_text r) folder_type then
        if contains inaccessible_mark (name_text r) then
          show_box (mkBox warning "无法访问"
                          ("无法访问文件夹:" ++ nl ++ path_text r)) w
        else if negb (String.eqb (path_text r) "") && isdir (path_text r) then
          navigate_to (path_text r)
            (mkWindow (current_path w) (path_history w ++ [path_text r])
                      (path_lineedit w) (rows w) (status w) (drive_enabled w)
                      (refresh_enabled w) (up_enabled w) (boxes w) (workers w))
        else
          show_box (mkBox warning "导航错误"
                          ("无法导航到文件夹:" ++ nl ++ path_text r)) w
      else w
  end.

(** [go_up()] *)
Definition go_up (w : window) : window :=
  let w1 :=
    if (1 <? List.length (path_history w))%nat then
      let history := removelast (path_history w) in
      navigate_to (last history "")
        (mkWindow (current_path w) history (path_lineedit w) (rows w)
                  (status w) (drive_enabled w) (refresh_enabled w)
                  (up_enabled w) (boxes w) (workers w))
    else w in
  mkWindow (current_path w1) (path_history w1) (path_lineedit w1) (rows w1)
           (status w1) (drive_enabled w1) (refresh_enabled w1)
           (1 <? List.length (path_history w1))%nat (boxes w1) (workers w1).

(** [refresh_view()] *)
Definition refresh_view (w : window) : window :=
  if negb (String.eqb (current_path w) "") then navigate_to (current_path w) w
  else w.

End Navigation.

(** [update_treeview(items, path)] *)
Definition update_treeview (items : list item) (path : string) (w : window)
  : window :=
  if negb (String.eqb path (current_path w)) then w
  else
    match items with
    | [] =>
        mkWindow (current_path w) (path_history w) (path_lineedit w) []
                 ("目录 " ++ path ++ " 为空或无法访问。")
                 (drive_enabled w) (refresh_enabled w) (up_enabled w)
                 (boxes w) (workers w)
    | _ =>
        let (rows', completed) := append_rows items [] in
        mkWindow (current_path w) (path_history w) (path_lineedit w) rows'
                 (if completed then ("分析完成: " ++ path)%string else status w)
                 (drive_enabled w) (refresh_enabled w) (up_enabled w)
                 (boxes w) (workers w)
    end.

(** [show_error(error_message, path)] *)
Definition show_error (error_message path : string) (w : window) : window :=
  if String.eqb path (current_path w) then
    set_controls_enabled true
      (show_box
         (mkBox critical "分析错误"
                ("无法分析目录 '" ++ path ++ "':" ++ nl ++ error_message))
         (mkWindow (current_path w) (path_history w) (path_lineedit w)
                   (rows w) ("错误: " ++ error_message) (drive_enabled w)
                   (refresh_enabled w) (up_enabled w) (boxes w) (workers w)))
  else w.

(** The slots a signal of the worker runs, and then the one of the end of
    its thread. *)
Definition deliver (s : signal) (w : window) : window :=
  set_controls_enabled true
    (match s with
     | finished items path => update_treeview items path w
     | error_signal message path => show_error message path w
     end).

(** What the user and the workers do to the window. *)
Inductive event : Type :=
| drive_selected (index : Z) (selected_drive : string)
| double_clicked (r : option row)
| up_clicked
| refresh_clicked
| worker_done (s : signal).

Definition handle (normpath : string -> string) (isdir : string -> bool)
           (e : event) (w : window) : window :=
  match e with
  | drive_selected i d => on_drive_selected normpath isdir i d w
  | double_clicked r => on_item_double_click normpath isdir r w
  | up_clicked => go_up normpath isdir w
  | refresh_clicked => refresh_view normpath isdir w
  | worker_done s => deliver s w
  end.

(** The window after the events, the first first. *)
Definition after (normpath : string -> string) (isdir : string -> bool)
           (events : list event) (w : window) : window :=
  fold_left (fun w e => handle normpath isdir e w) events w.

(** Where the window stands: a directory is shown only with a history to
    go back in, every worker was started on a directory, the directory
    shown is one a worker was started on, and no entry of the history is
    empty. *)
Definition settled (isdir : string -> bool) (w : window) : Prop :=
  (current_path w = "" \/ path_history w <> []) /\
  Forall (fun p => isdir p = true) (workers w) /\
  (current_path w = "" \/ In (current_path w) (workers w)) /\
  Forall (fun p => p <> "") (path_history w).

End Gui.

(** * Properties *)

Import Snapshot.

(** ** Induction on the directory tree *)

Section DirEntryInduction.

Variable P : DirEntry -> Prop.

Hypothesis step :
  forall entry,
    match entry_scandir entry with
    | Ok entries => Forall P entries
    | Raise _ => True
    end ->
    P entry.

Fixpoint DirEntry_tree_ind (entry : DirEntry) : P entry :=
  step entry
    (match entry as e
           return match entry_scandir e with
                  | Ok entries => Forall P entries
                  | Raise _ => True
                  end with
     | mkDirEntry _ _ _ _ _ folder =>
         match folder as r
               return match r with
                      | Ok entries => Forall P entries
                      | Raise _ => True
                      end with
         | Raise _ => I
         | Ok entries =>
             (fix all (l : list DirEntry) : Forall P l :=
                match l with
                | [] => Forall_nil P
                | e :: l' => Forall_cons e (DirEntry_tree_ind e) (all l')
                end) entries
         end
     end).

End DirEntryInduction.

(** ** The size of a folder *)

Lemma get_entry_size_unfold (entry : DirEntry) :
  get_entry_size entry = get_folder_size (entry_scandir entry).
Proof. destruct entry; reflexivity. Qed.

(** No [OSError] leaves [get_folder_size]: every handler passes. *)
Lemma get_folder_size_returns (folder : result (list DirEntry)) :
  get_folder_size folder = Ok (value_of (get_folder_size folder)).
Proof. destruct folder; reflexivity. Qed.

Lemma get_folder_size_unlistable (e : exn) :
  get_folder_size (Raise e) = Ok 0.
Proof. reflexivity. Qed.

Lemma get_entry_size_sizeOf (entry : DirEntry) :
  get_entry_size entry = Ok (sizeOf entry).
Proof.
  rewrite get_entry_size_unfold. unfold sizeOf.
  apply get_folder_size_returns.
Qed.

(** [total_size] only grows by what the loop adds to it. *)
Lemma scan_entries_acc (rec : DirEntry -> result Z) (entries : list DirEntry) :
  forall total,
    scan_entries rec entries total = total + scan_entries rec entries 0.
Proof.
  induction entries as [| entry rest IH]; intro total; simpl.
  - lia.
  - destruct (entry_is_file entry) as [[|]|].
    + destruct (entry_st_size entry) as [n|].
      * rewrite (IH (total + n)), (IH n). lia.
      * apply IH.
    + destruct (entry_is_dir entry) as [[|]|].
      * destruct (rec entry) as [n|].
        -- rewrite (IH (total + n)), (IH n). lia.
        -- apply IH.
      * apply IH.
      * lia.
    + lia.
Qed.

Lemma sum_Z_app (l1 l2 : list Z) : sum_Z (l1 ++ l2) = sum_Z l1 + sum_Z l2.
Proof.
  induction l1 as [| x l1 IH]; simpl.
  - reflexivity.
  - unfold sum_Z in *. simpl. rewrite IH. lia.
Qed.

Lemma readable_entry_cases (entry : DirEntry) :
  readable_entry entry = true ->
  (entry_is_file entry = Ok true /\ entry_is_dir entry = Ok false /\
   exists n, entry_st_size entry = Ok n) \/
  (entry_is_file entry = Ok false /\ entry_is_dir entry = Ok true /\
   exists entries, entry_scandir entry = Ok entries /\
                   forallb readable_entry entries = true).
Proof.
  destruct entry as [n p f d s folder]; simpl.
  destruct f as [[|]|]; destruct d as [[|]|]; try discriminate.
  - destruct s as [k|]; try discriminate. intros _. left. eauto.
  - destruct folder as [entries|]; try discriminate.
    intros H. right. eauto.
Qed.

(** The loop over a folder without access errors adds the byte length of
    each regular file and the size of each subdirectory. *)
Lemma scan_entries_readable (entries : list DirEntry) :
  forallb readable_entry entries = true ->
  scan_entries get_entry_size entries 0 =
  sum_Z (map byte_length (filter is_regular_file entries)) +
  sum_Z (map sizeOf (filter is_subdirectory entries)).
Proof.
  induction entries as [| entry rest IH]; simpl.
  - reflexivity.
  - intros H. apply andb_true_iff in H. destruct H as [He Hrest].
    specialize (IH Hrest).
    destruct (readable_entry_cases entry He)
      as [(Hf & Hd & n & Hs) | (Hf & Hd & sub & Hsub & _)].
    + assert (Hreg : is_regular_file entry = true)
        by (unfold is_regular_file; now rewrite Hf).
      assert (Hsubd : is_subdirectory entry = false)
        by (unfold is_subdirectory; now rewrite Hd).
      rewrite Hf, Hs, Hreg, Hsubd. simpl.
      rewrite scan_entries_acc, IH.
      unfold byte_length at 2. rewrite Hs. simpl. lia.
    + assert (Hreg : is_regular_file entry = false)
        by (unfold is_regular_file; now rewrite Hf).
      assert (Hsubd : is_subdirectory entry = true)
        by (unfold is_subdirectory; now rewrite Hd).
      rewrite Hf, Hd, get_entry_size_sizeOf, Hreg, Hsubd. simpl.
      rewrite scan_entries_acc, IH. lia.
Qed.

(** C3.  For a folder that holds only regular files whose size can be read
    and subdirectories, with no access error anywhere beneath it,
    [get_folder_size] returns the sum of the byte lengths of its direct
    files plus the sum of [get_folder_size] over its immediate
    subdirectories; for a flat folder that is the sum of the byte lengths
    of its files. *)
Theorem get_folder_size_sum (entries : list DirEntry) :
  readable_folder (Ok entries) = true ->
  get_folder_size (Ok entries) =
    Ok (sum_Z (map byte_length (filter is_regular_file entries)) +
        sum_Z (map sizeOf (filter is_subdirectory entries))) /\
  (filter is_subdirectory entries = [] ->
   get_folder_size (Ok entries) = Ok (sum_Z (map byte_length entries))).
Proof.
  intros H. simpl in H.
  assert (E := scan_entries_readable entries H).
  split.
  - unfold get_folder_size, folder_size_body. now rewrite E.
  - intros Hflat. unfold get_folder_size, folder_size_body. rewrite E, Hflat.
    simpl. f_equal.
    assert (Hall : filter is_regular_file entries = entries).
    { clear E. induction entries as [| entry rest IH]; simpl in *.
      - reflexivity.
      - apply andb_true_iff in H. destruct H as [He Hrest].
        unfold is_regular_file at 1.
        destruct (readable_entry_cases entry He)
          as [(Hf & _) | (_ & Hd & _)].
        + rewrite Hf. f_equal. apply IH; [assumption|].
          revert Hflat. unfold is_subdirectory at 1.
          destruct (entry_is_dir entry) as [[|]|]; try discriminate; auto.
        + exfalso. revert Hflat. unfold is_subdirectory at 1.
          rewrite Hd. discriminate. }
    rewrite Hall. lia.
Qed.

Lemma get_folder_size_sum_witness :
  readable_folder (Ok root_folder) = true /\
  get_folder_size (Ok root_folder) = Ok (30 + 5) /\
  get_folder_size (Ok sub_folder) = Ok 5.
Proof.
  split; [reflexivity|].
  split.
  - exact (proj1 (get_folder_size_sum root_folder eq_refl)).
  - exact (proj2 (get_folder_size_sum sub_folder eq_refl) eq_refl).
Defined.

(** The loop over a folder without access errors adds up every file
    beneath it. *)
Lemma scan_entries_files_beneath (entries : list DirEntry) :
  Forall (fun entry => readable_entry entry = true ->
                       entry_is_dir entry = Ok true ->
                       sizeOf entry = true_size entry) entries ->
  forallb readable_entry entries = true ->
  scan_entries get_entry_size entries 0 =
  sum_Z (flat_map files_beneath entries).
Proof.
  induction 1 as [| entry rest Hentry _ IH]; simpl; intros H.
  - reflexivity.
  - apply andb_true_iff in H. destruct H as [He Hrest].
    rewrite sum_Z_app, <- (IH Hrest).
    destruct (readable_entry_cases entry He)
      as [(Hf & Hd & n & Hs) | (Hf & Hd & sub & Hsub & _)].
    + rewrite Hf, Hs, scan_entries_acc.
      destruct entry as [nm p f d s folder]; simpl in *; subst.
      unfold sum_Z; simpl. lia.
    + rewrite Hf, Hd, get_entry_size_sizeOf, scan_entries_acc.
      rewrite (Hentry He Hd). reflexivity.
Qed.

(** The size of a directory without access errors is its true recursive
    size: the sum of the byte lengths of all files beneath it. *)
Lemma sizeOf_true_size (entry : DirEntry) :
  readable_entry entry = true ->
  entry_is_dir entry = Ok true ->
  sizeOf entry = true_size entry.
Proof.
  induction entry as [entry IH] using DirEntry_tree_ind.
  intros He Hd.
  destruct (readable_entry_cases entry He)
    as [(_ & Hd' & _) | (_ & _ & sub & Hsub & Hall)].
  - congruence.
  - rewrite Hsub in IH.
    unfold sizeOf, true_size.
    destruct entry as [nm p f d s folder]; simpl in *; subst.
    rewrite <- (scan_entries_files_beneath sub IH Hall). reflexivity.
Qed.

(** Failures of [stat()] and of listings do not stop the loop: when the
    kind of every entry is known, it adds up every byte length that can be
    read beneath the folder. *)
Lemma scan_entries_sizes_read (entries : list DirEntry) :
  Forall (fun entry =>
            kinds_known entry = true ->
            sizeOf entry =
            match entry_scandir entry with
            | Ok sub => sum_Z (flat_map sizes_read_beneath sub)
            | Raise _ => 0
            end) entries ->
  forallb kinds_known entries = true ->
  scan_entries get_entry_size entries 0 =
  sum_Z (flat_map sizes_read_beneath entries).
Proof.
  induction 1 as [| entry rest Hentry _ IH]; simpl; intros H.
  - reflexivity.
  - apply andb_true_iff in H. destruct H as [He Hrest].
    rewrite sum_Z_app, <- (IH Hrest). specialize (Hentry He).
    assert (Hkind :
              match entry_is_file entry with
              | Ok true => true
              | Ok false =>
                  match entry_is_dir entry with
                  | Ok _ => true
                  | Raise _ => false
                  end
              | Raise _ => false
              end = true).
    { destruct entry; simpl in *. apply andb_true_iff in He. tauto. }
    assert (Hread :
              sizes_read_beneath entry =
              match entry_is_file entry with
              | Ok true =>
                  match entry_st_size entry with
                  | Ok n => [n]
                  | Raise _ => []
                  end
              | _ =>
                  match entry_is_dir entry with
                  | Ok true =>
                      match entry_scandir entry with
                      | Ok sub => flat_map sizes_read_beneath sub
                      | Raise _ => []
                      end
                  | _ => []
                  end
              end) by (destruct entry; reflexivity).
    rewrite Hread.
    destruct (entry_is_file entry) as [[|]|]; [| |discriminate].
    + destruct (entry_st_size entry) as [n|]; rewrite scan_entries_acc;
        unfold sum_Z; simpl; lia.
    + destruct (entry_is_dir entry) as [[|]|]; [| |discriminate].
      * rewrite get_entry_size_sizeOf, scan_entries_acc, Hentry.
        destruct (entry_scandir entry); reflexivity.
      * reflexivity.
Qed.

Lemma sizeOf_sizes_read (entry : DirEntry) :
  kinds_known entry = true ->
  sizeOf entry =
  match entry_scandir entry with
  | Ok sub => sum_Z (flat_map sizes_read_beneath sub)
  | Raise _ => 0
  end.
Proof.
  induction entry as [entry IH] using DirEntry_tree_ind.
  intros He. unfold sizeOf.
  destruct entry as [nm p f d s folder]; simpl in *.
  apply andb_true_iff in He. destruct He as [_ Hsub].
  destruct folder as [sub|]; [|reflexivity].
  simpl. apply scan_entries_sizes_read; assumption.
Qed.

(** The loop stops at an entry whose kind cannot be told: the files listed
    after it are not counted. *)
Lemma scan_entries_stops_at_unknown_kind :
  get_folder_size
    (Ok [dangling_link; regular_file "notes.txt" "home/notes.txt" 7]) = Ok 0.
Proof. reflexivity. Qed.

(** ** The sort of the report *)

Lemma insert_desc_perm (x : item) (l : list item) :
  Permutation (insert_desc x l) (x :: l).
Proof.
  induction l as [| y r IH]; simpl.
  - apply Permutation_refl.
  - destruct (size y <=? size x).
    + apply Permutation_refl.
    + eapply perm_trans; [apply perm_skip, IH | apply perm_swap].
Qed.

Lemma sort_by_size_desc_perm (l : list item) :
  Permutation (sort_by_size_desc l) l.
Proof.
  induction l as [| x r IH]; simpl.
  - apply perm_nil.
  - eapply perm_trans; [apply insert_desc_perm | apply perm_skip, IH].
Qed.

Lemma insert_desc_sorted (x : item) (l : list item) :
  StronglySorted by_size_desc l ->
  StronglySorted by_size_desc (insert_desc x l).
Proof.
  induction 1 as [| y r Hr IH Hy]; simpl.
  - repeat constructor.
  - destruct (size y <=? size x) eqn:E.
    + apply Z.leb_le in E.
      constructor; [constructor; assumption|].
      constructor; [exact E|].
      rewrite Forall_forall in *. intros z Hz.
      specialize (Hy z Hz). unfold by_size_desc in *. lia.
    + apply Z.leb_gt in E.
      constructor; [exact IH|].
      rewrite Forall_forall in *. intros z Hz.
      apply (Permutation_in _ (insert_desc_perm x r)) in Hz.
      destruct Hz as [<- | Hz].
      * unfold by_size_desc. lia.
      * apply Hy, Hz.
Qed.

Lemma sort_by_size_desc_sorted (l : list item) :
  StronglySorted by_size_desc (sort_by_size_desc l).
Proof.
  induction l as [| x r IH]; simpl.
  - constructor.
  - apply insert_desc_sorted, IH.
Qed.

(** An item is put behind larger items only: among the items of its own
    size it stays first. *)
Lemma insert_desc_of_size (s : Z) (x : item) (l : list item) :
  of_size s (insert_desc x l) = of_size s (x :: l).
Proof.
  unfold of_size.
  induction l as [| y r IH]; simpl.
  - reflexivity.
  - destruct (size y <=? size x) eqn:E.
    + reflexivity.
    + apply Z.leb_gt in E. simpl. rewrite IH. simpl.
      destruct (size x =? s) eqn:Ex; [|reflexivity].
      apply Z.eqb_eq in Ex.
      assert (Ey : (size y =? s) = false) by (apply Z.eqb_neq; lia).
      rewrite Ey. reflexivity.
Qed.

Lemma sort_by_size_desc_stable (s : Z) (l : list item) :
  of_size s (sort_by_size_desc l) = of_size s l.
Proof.
  induction l as [| x r IH]; simpl.
  - reflexivity.
  - rewrite insert_desc_of_size. unfold of_size in *. simpl.
    rewrite IH. reflexivity.
Qed.

(** ** The loop of the report *)

Lemma analyze_entry_fields (entry : DirEntry) (it : item) :
  analyze_entry entry = Ok it ->
  name it = entry_name entry /\ path it = entry_path entry /\
  entry_is_dir entry = Ok (is_dir it).
Proof.
  unfold analyze_entry.
  destruct (entry_is_dir entry) as [isd|]; [|discriminate].
  destruct (read_size entry isd); intros [= <-]; auto.
Qed.

(** When the loop ends, [items] has grown by one item for each entry, in
    the order of the listing. *)
Lemma analyze_entries_ok (entries : list DirEntry) :
  forall acc items,
    analyze_entries entries acc = Ok items ->
    exists listed,
      items = acc ++ listed /\
      Forall2 (fun entry it => analyze_entry entry = Ok it) entries listed.
Proof.
  induction entries as [| entry rest IH]; simpl; intros acc items H.
  - injection H as <-. exists []. split; [now rewrite app_nil_r | constructor].
  - destruct (analyze_entry entry) as [it|] eqn:E; [|discriminate].
    destruct (IH _ _ H) as (listed & -> & Hall).
    exists (it :: listed). split.
    + now rewrite <- app_assoc.
    + now constructor.
Qed.

Lemma analyze_directory_ok (fs : filesystem) (p : string) (items : list item) :
  analyze_directory fs p = Ok items ->
  exists entries listed,
    fs p = Ok entries /\
    Forall2 (fun entry it => analyze_entry entry = Ok it) entries listed /\
    items = sort_by_size_desc listed.
Proof.
  unfold analyze_directory.
  destruct (fs p) as [entries|]; [|discriminate].
  destruct (analyze_entries entries []) as [listed|] eqn:E; [|discriminate].
  intros [= <-].
  destruct (analyze_entries_ok _ _ _ E) as (l & -> & Hall).
  exists entries, l. simpl. auto.
Qed.

(** C5.  The report of a successful call is in descending order of size,
    and the items of equal size keep the order of the listing; files of
    300, 100, 300 and 0 bytes listed in this order are reported as 300,
    300, 100, 0, the first 300-byte file before the second. *)
Theorem analyze_directory_sorted_stable :
  (forall fs p items,
      analyze_directory fs p = Ok items ->
      StronglySorted by_size_desc items /\
      exists entries listed,
        fs p = Ok entries /\
        Forall2 (fun entry it => analyze_entry entry = Ok it) entries listed /\
        Permutation listed items /\
        forall s, of_size s items = of_size s listed) /\
  analyze_directory four_fs "d" =
    Ok [mkItem "w" 300 false "d/w" None; mkItem "y" 300 false "d/y" None;
        mkItem "x" 100 false "d/x" None; mkItem "z" 0 false "d/z" None].
Proof.
  split; [|reflexivity].
  intros fs p items H.
  destruct (analyze_directory_ok fs p items H) as (entries & listed & Hfs & Hall & ->).
  split; [apply sort_by_size_desc_sorted|].
  exists entries, listed. repeat split; try assumption.
  - apply Permutation_sym, sort_by_size_desc_perm.
  - intros s. apply sort_by_size_desc_stable.
Qed.

Lemma analyze_directory_sorted_stable_witness :
  StronglySorted by_size_desc
    [mkItem "sub" 5 true "root/sub" None] /\
  analyze_directory (mount "root" (Ok [directory "sub" "root/sub" (Ok sub_folder)]))
                    "root" = Ok [mkItem "sub" 5 true "root/sub" None].
Proof.
  split; [|reflexivity].
  exact (proj1 (proj1 analyze_directory_sorted_stable
                  (mount "root" (Ok [directory "sub" "root/sub" (Ok sub_folder)]))
                  "root" _ eq_refl)).
Defined.

(** In the report of a successful call every immediate child of the
    directory has exactly one item: the items are, up to the order, one
    per entry of the listing, with the name, the path and the kind of the
    entry.  When reading the size of a child raises, its item is appended
    with size 0 and the key [error]; otherwise it has the size read and
    no key [error].  Reading the size of a directory never raises. *)
Theorem analyze_directory_lists_every_child
        (fs : filesystem) (p : string)
        (entries : list DirEntry) (items : list item) :
  fs p = Ok entries ->
  analyze_directory fs p = Ok items ->
  exists listed,
    Permutation listed items /\
    Forall2 (fun entry it =>
               name it = entry_name entry /\
               path it = entry_path entry /\
               entry_is_dir entry = Ok (is_dir it) /\
               (match read_size entry (is_dir it) with
                | Ok n => size it = n /\ error it = None
                | Raise e => size it = 0 /\ error it = Some (item_error e)
                end))
            entries listed.
Proof.
  intros Hfs H.
  destruct (analyze_directory_ok fs p items H)
    as (entries' & listed & Hfs' & Hall & ->).
  assert (entries' = entries) as -> by congruence.
  exists listed. split.
  - apply Permutation_sym, sort_by_size_desc_perm.
  - clear -Hall. induction Hall as [| entry it rest l Hit _ IH]; constructor.
    + destruct (analyze_entry_fields entry it Hit) as (Hn & Hp & Hd).
      split; [exact Hn|]. split; [exact Hp|]. split; [exact Hd|].
      revert Hit. unfold analyze_entry. rewrite Hd.
      destruct (read_size entry (is_dir it)); intros [= <-]; split; reflexivity.
    + exact IH.
Qed.

Lemma analyze_directory_lists_every_child_witness :
  exists listed,
    Permutation listed
      [mkItem "a.txt" 10 false "docs/a.txt" None;
       mkItem "b.txt" 0 false "docs/b.txt" (Some "权限不足")] /\
    map name listed = ["b.txt"; "a.txt"] /\
    map error listed = [Some "权限不足"; None].
Proof.
  destruct (analyze_directory_lists_every_child
              (mount "docs" (Ok [unreadable_file "b.txt" "docs/b.txt";
                                 regular_file "a.txt" "docs/a.txt" 10]))
              "docs" _ _ eq_refl eq_refl) as (listed & Hperm & Hall).
  exists listed. split; [exact Hperm|].
  inversion Hall as [| e1 i1 r1 l1 (H1 & _ & D1 & S1) Hall1]; subst.
  inversion Hall1 as [| e2 i2 r2 l2 (H2 & _ & D2 & S2) Hall2]; subst.
  inversion Hall2; subst. simpl.
  injection D1 as D1. injection D2 as D2.
  rewrite <- D1 in S1. rewrite <- D2 in S2. simpl in S1, S2.
  destruct S1 as [_ E1]. destruct S2 as [_ E2].
  now rewrite H1, H2, E1, E2.
Defined.

(** C6.  On [photos/] every child has exactly one item in the report,
    none is left out: the file whose size could not be read has size 0
    and the key [error]; the directory whose size could not be obtained,
    since it may not be listed, has size 0 and no key [error]. *)
Theorem unlistable_child_listed_without_mark :
  entry_scandir album_dir = Raise (denied "photos/album") /\
  photos_fs "photos" =
    Ok [album_dir; unreadable_file "raw.bin" "photos/raw.bin";
        regular_file "note.txt" "photos/note.txt" 12] /\
  analyze_directory photos_fs "photos" =
    Ok [mkItem "note.txt" 12 false "photos/note.txt" None;
        mkItem "album" 0 true "photos/album" None;
        mkItem "raw.bin" 0 false "photos/raw.bin" (Some "权限不足")].
Proof. repeat split. Qed.

(** C9.  For a directory that can be listed and has no entries the call
    succeeds with the empty report, and for a directory that cannot be
    listed it does not succeed: the two are told apart. *)
Theorem analyze_directory_empty (fs : filesystem) (p : string) :
  (fs p = Ok [] -> analyze_directory fs p = Ok []) /\
  (forall e, fs p = Raise e ->
             forall items, analyze_directory fs p <> Ok items).
Proof.
  unfold analyze_directory. split.
  - intros ->. reflexivity.
  - intros e He items. rewrite He. discriminate.
Qed.

Lemma analyze_directory_empty_witness :
  analyze_directory (mount "void" (Ok [])) "void" = Ok [] /\
  analyze_directory (mount "void" (Ok [])) "gone" <> Ok [].
Proof.
  split.
  - exact (proj1 (analyze_directory_empty (mount "void" (Ok [])) "void")
                 eq_refl).
  - exact (proj2 (analyze_directory_empty (mount "void" (Ok [])) "gone")
                 _ eq_refl []).
Defined.

(** ** Failures beneath the analysed directory *)

(** The item of a directory never has the key [error]: no [OSError] leaves
    [get_folder_size], so neither inner handler runs for a directory. *)
Lemma analyze_entry_directory (entry : DirEntry) :
  entry_is_dir entry = Ok true ->
  analyze_entry entry =
    Ok (mkItem (entry_name entry) (sizeOf entry) true (entry_path entry) None).
Proof.
  intros Hd. unfold analyze_entry, read_size. rewrite Hd.
  rewrite get_folder_size_returns. reflexivity.
Qed.

(** The item of anything else has the size [stat()] gives, or size 0 and
    the key [error] when [stat()] raises. *)
Lemma analyze_entry_file (entry : DirEntry) :
  entry_is_dir entry = Ok false ->
  analyze_entry entry =
    Ok (match entry_st_size entry with
        | Ok n => mkItem (entry_name entry) n false (entry_path entry) None
        | Raise e => mkItem (entry_name entry) 0 false (entry_path entry)
                            (Some (item_error e))
        end).
Proof.
  intros Hd. unfold analyze_entry, read_size. rewrite Hd.
  destruct (entry_st_size entry); reflexivity.
Qed.

(** An item with the key [error] has size 0. *)
Lemma analyze_entry_error_size (entry : DirEntry) (it : item) :
  analyze_entry entry = Ok it -> error it <> None -> size it = 0.
Proof.
  unfold analyze_entry, read_size.
  destruct (entry_is_dir entry) as [isd|]; [|discriminate].
  destruct (if isd then _ else _); intros [= <-]; simpl; congruence.
Qed.

Lemma sum_Z_nonneg (l : list Z) : Forall (fun n => 0 <= n) l -> 0 <= sum_Z l.
Proof.
  induction 1 as [| n r Hn _ IH]; unfold sum_Z in *; simpl; lia.
Qed.

Lemma scan_entries_nonneg (rec : DirEntry -> result Z)
      (entries : list DirEntry) :
  Forall (fun entry => sizes_nonneg entry = true ->
                       forall n, rec entry = Ok n -> 0 <= n) entries ->
  forallb sizes_nonneg entries = true ->
  forall total, 0 <= total -> 0 <= scan_entries rec entries total.
Proof.
  induction 1 as [| entry rest Hentry _ IH]; simpl; intros Hall total Ht.
  - exact Ht.
  - apply andb_true_iff in Hall. destruct Hall as [He Hrest].
    specialize (IH Hrest). specialize (Hentry He).
    assert (Hs : forall n, entry_st_size entry = Ok n -> 0 <= n).
    { intros n Hn. destruct entry as [nm p f d s folder]; simpl in *; subst.
      apply andb_true_iff in He. destruct He as [He _].
      now apply Z.leb_le. }
    destruct (entry_is_file entry) as [[|]|]; [| |exact Ht].
    + destruct (entry_st_size entry) as [n|]; apply IH;
        [specialize (Hs n eq_refl)|]; lia.
    + destruct (entry_is_dir entry) as [[|]|]; [| |exact Ht].
      * destruct (rec entry) as [n|]; apply IH;
          [specialize (Hentry n eq_refl)|]; lia.
      * apply IH, Ht.
Qed.

(** Errors do not make a size negative: when the file system reports byte
    counts, [get_folder_size] returns one. *)
Lemma sizeOf_nonneg (entry : DirEntry) :
  sizes_nonneg entry = true -> 0 <= sizeOf entry.
Proof.
  induction entry as [entry IH] using DirEntry_tree_ind.
  intros He. unfold sizeOf.
  destruct entry as [nm p f d s folder]; simpl in *.
  apply andb_true_iff in He. destruct He as [_ He].
  destruct folder as [entries|]; simpl; [|lia].
  apply scan_entries_nonneg; [|exact He|lia].
  eapply Forall_impl; [|exact IH]. simpl.
  intros e Hrec Hnn n Hn. rewrite get_entry_size_sizeOf in Hn.
  injection Hn as <-. exact (Hrec Hnn).
Qed.

Lemma analyze_entry_nonneg (entry : DirEntry) (it : item) :
  sizes_nonneg entry = true -> analyze_entry entry = Ok it -> 0 <= size it.
Proof.
  intros Hnn. unfold analyze_entry, read_size.
  destruct (entry_is_dir entry) as [[|]|]; [| |discriminate].
  - rewrite get_folder_size_returns. intros [= <-]. simpl.
    now apply sizeOf_nonneg.
  - destruct entry as [nm p f d s folder]; simpl in *.
    apply andb_true_iff in Hnn. destruct Hnn as [Hs _].
    destruct s as [n|]; intros [= <-]; simpl; [now apply Z.leb_le | lia].
Qed.

(** The sizes of a report are byte counts, and the items with the key
    [error] have size 0. *)
Lemma analyze_directory_sizes (fs : filesystem) (p : string)
      (entries : list DirEntry) (items : list item) :
  fs p = Ok entries ->
  forallb sizes_nonneg entries = true ->
  analyze_directory fs p = Ok items ->
  Forall (fun it => 0 <= size it /\ (error it <> None -> size it = 0)) items.
Proof.
  intros Hfs Hnn H.
  destruct (analyze_directory_ok fs p items H)
    as (entries' & listed & Hfs' & Hall & ->).
  assert (entries' = entries) as -> by congruence.
  rewrite Forall_forall. intros it Hit.
  apply (Permutation_in _ (sort_by_size_desc_perm listed)) in Hit.
  rewrite forallb_forall in Hnn.
  clear -Hall Hit Hnn.
  induction Hall as [| entry i rest l Hi _ IH].
  - destruct Hit.
  - destruct Hit as [<- | Hit].
    + split.
      * eapply analyze_entry_nonneg; [|exact Hi]. apply Hnn. now left.
      * eapply analyze_entry_error_size, Hi.
    + apply IH; [|exact Hit]. intros x Hx. apply Hnn. now right.
Qed.

(** A sibling without access errors is reported with its true recursive
    size and without the key [error], whatever happens to the other
    children. *)
Lemma analyze_entry_readable (entry : DirEntry) :
  readable_entry entry = true ->
  exists isd,
    analyze_entry entry =
      Ok (mkItem (entry_name entry) (true_size entry) isd (entry_path entry)
                 None).
Proof.
  intros He.
  destruct (readable_entry_cases entry He)
    as [(_ & Hd & n & Hs) | (_ & Hd & _)].
  - exists false. rewrite (analyze_entry_file entry Hd), Hs.
    unfold true_size. destruct entry as [nm p f d s folder]; simpl in *; subst.
    unfold sum_Z; simpl. now rewrite Z.add_0_r.
  - exists true. rewrite (analyze_entry_directory entry Hd).
    now rewrite (sizeOf_true_size entry He Hd).
Qed.

(** A failure to list the analysed directory leaves the call as an
    exception of the same class, whose text holds the path and whose cause
    is the failure. *)
Lemma analyze_directory_unlistable (fs : filesystem) (p : string) (e : exn) :
  fs p = Raise e ->
  analyze_directory fs p = Raise (scan_error p e) /\
  exn_cls (scan_error p e) = exn_cls e /\
  exn_cause (scan_error p e) = Some e /\
  exists after,
    exn_str (scan_error p e) = ("无法扫描目录 " ++ p ++ after)%string.
Proof.
  intros H. unfold analyze_directory. rewrite H.
  unfold scan_error.
  destruct (exn_cls e); simpl; repeat split; eauto.
Qed.

(** When [is_dir()] answers for every child, the call succeeds: failures
    of [stat()] and of the listings beneath are absorbed. *)
Lemma analyze_directory_succeeds (fs : filesystem) (p : string)
      (entries : list DirEntry) :
  fs p = Ok entries ->
  Forall (fun entry => exists b, entry_is_dir entry = Ok b) entries ->
  exists items, analyze_directory fs p = Ok items.
Proof.
  intros Hfs Hall. unfold analyze_directory. rewrite Hfs.
  assert (H : forall acc, exists l, analyze_entries entries acc = Ok l).
  { clear Hfs. induction Hall as [| entry rest [b Hb] _ IH]; intros acc; simpl.
    - eauto.
    - destruct b.
      + rewrite (analyze_entry_directory entry Hb). simpl. apply IH.
      + rewrite (analyze_entry_file entry Hb). simpl. apply IH. }
  destruct (H []) as [l ->]. eauto.
Qed.

(** C1.  On [top/], whose child [A/] may not be listed and whose child
    [B/] has no access error beneath it, the report has an item for each;
    the item of [B] has the true recursive size of [B], 35 bytes; the item
    of [A] has size 0 and no key [error]. *)
Theorem unlistable_sibling_not_marked :
  entry_scandir sibling_A = Raise (denied "top/A") /\
  readable_entry sibling_B = true /\
  true_size sibling_B = 35 /\
  analyze_directory top_fs "top" =
    Ok [mkItem "B" 35 true "top/B" None; mkItem "A" 0 true "top/A" None].
Proof. repeat split. Qed.

(** The report does not mark every directory it could not list: on
    [vault/] the directory [private/] may not be listed and its item has
    no key [error]. *)
Lemma vault_private_not_marked : ~ unlistable_marked vault_fs "vault".
Proof.
  intros H.
  apply (H [private_dir] [mkItem "private" 0 true "vault/private" None]
           private_dir (mkItem "private" 0 true "vault/private" None)).
  - reflexivity.
  - reflexivity.
  - now left.
  - reflexivity.
  - now exists (denied "vault/private").
  - repeat split. now left.
  - reflexivity.
Qed.

(** C2.  [vault/private] may not be listed: [get_folder_size] returns 0
    for it and raises nothing, the result it has for an empty directory,
    so that its caller gets no sign of the failure; the item of [private]
    in the report of [vault/] has size 0 and no key [error]. *)
Theorem unlistable_subdirectory_not_signalled :
  entry_scandir private_dir = Raise (denied "vault/private") /\
  get_folder_size (entry_scandir private_dir) = Ok 0 /\
  get_folder_size (entry_scandir empty_dir) = Ok 0 /\
  analyze_directory vault_fs "vault" =
    Ok [mkItem "private" 0 true "vault/private" None].
Proof. repeat split. Qed.

(** What holds of the failures [get_folder_size] absorbs: for a directory
    that cannot be listed it returns 0 and raises nothing, and it returns
    an integer for every directory.  The item of a subdirectory beneath
    which no error is met has the size [get_folder_size] returns, which is
    its true recursive size, and no key [error]. *)
Theorem get_folder_size_absorbs :
  (forall e, get_folder_size (Raise e) = Ok 0) /\
  (forall folder, exists n, get_folder_size folder = Ok n) /\
  (forall child,
      entry_is_dir child = Ok true ->
      readable_entry child = true ->
      get_folder_size (entry_scandir child) = Ok (true_size child) /\
      analyze_entry child =
        Ok (mkItem (entry_name child) (true_size child) true
                   (entry_path child) None)).
Proof.
  split; [reflexivity|]. split.
  - intros folder. rewrite get_folder_size_returns. eauto.
  - intros child Hd He.
    rewrite (analyze_entry_directory child Hd), get_folder_size_returns.
    fold (sizeOf child). now rewrite (sizeOf_true_size child He Hd).
Qed.

Lemma get_folder_size_absorbs_witness :
  entry_is_dir sibling_B = Ok true /\
  readable_entry sibling_B = true /\
  get_folder_size (entry_scandir sibling_B) = Ok 35 /\
  analyze_entry sibling_B = Ok (mkItem "B" 35 true "top/B" None).
Proof.
  split; [reflexivity|]. split; [reflexivity|].
  exact (proj2 (proj2 get_folder_size_absorbs) sibling_B eq_refl eq_refl).
Defined.

(** C4.  [home/] can be listed, but [is_dir()] raises [PermissionError]
    for its second child: the call raises, with the text for a directory
    that cannot be scanned, although the listing of [home/] did not fail;
    the item of the first child is lost with it. *)
Theorem child_type_test_failure_propagates :
  home_fs "home" =
    Ok [regular_file "notes.txt" "home/notes.txt" 7; dangling_link] /\
  entry_is_dir dangling_link = Raise (denied "home/link") /\
  analyze_directory home_fs "home" =
    Raise (ExnFrom PermissionError "无法扫描目录 home: 权限不足"
                   (denied "home/link")).
Proof. repeat split. Qed.

(** C7.  On [data/], which holds an empty directory and a directory that
    may not be listed, the two items differ in name and path only: the
    directory whose size could not be obtained is reported with size 0 and
    without the key [error], as the empty one is. *)
Theorem unlistable_directory_reported_as_empty :
  entry_scandir locked_dir = Raise (denied "data/locked") /\
  entry_scandir empty_dir = Ok [] /\
  analyze_directory data_fs "data" =
    Ok [mkItem "empty" 0 true "data/empty" None;
        mkItem "locked" 0 true "data/locked" None].
Proof. repeat split. Qed.

(** ** The state of the operating system *)

Section Frame.

Context {world DirEntry : Type} (sys : IO.OS world DirEntry).

Hypothesis queries : IO.read_only sys.

Lemma scan_entries_frame (rec : string -> IO.M Z) :
  (forall p w, snd (rec p w) = w) ->
  forall entries total w,
    snd (IO.scan_entries sys rec entries total w) = w.
Proof.
  destruct queries as (_ & Hfile & Hdir & Hstat).
  intros Hrec.
  induction entries as [| entry rest IH]; intros total w; simpl.
  - reflexivity.
  - specialize (Hfile entry w).
    destruct (IO.entry_is_file sys entry w) as [[[|]|] w1];
      simpl in Hfile; subst w1.
    + specialize (Hstat entry w).
      destruct (IO.entry_st_size sys entry w) as [[n|] w2];
        simpl in Hstat; subst w2; apply IH.
    + specialize (Hdir entry w).
      destruct (IO.entry_is_dir sys entry w) as [[[|]|] w2];
        simpl in Hdir; subst w2.
      * specialize (Hrec (IO.entry_path sys entry) w).
        destruct (rec (IO.entry_path sys entry) w) as [[[n|]|] w3];
          simpl in Hrec; subst w3; solve [apply IH | reflexivity].
      * apply IH.
      * reflexivity.
    + reflexivity.
Qed.

Lemma get_folder_size_frame (limit : nat) :
  forall p w, snd (IO.get_folder_size sys limit p w) = w.
Proof.
  induction limit as [| limit IH]; intros p w; simpl.
  - reflexivity.
  - assert (Hscan := proj1 queries p w).
    destruct (IO.os_scandir sys p w) as [[entries|] w1];
      simpl in Hscan; subst w1; [|reflexivity].
    assert (Hloop := scan_entries_frame _ IH entries 0 w).
    destruct (IO.scan_entries sys _ entries 0 w) as [[total|] w2];
      simpl in Hloop; subst w2; reflexivity.
Qed.

Lemma analyze_entry_frame (limit : nat) (entry : DirEntry) (w : world) :
  snd (IO.analyze_entry sys limit entry w) = w.
Proof.
  destruct queries as (_ & _ & Hdir & Hstat).
  unfold IO.analyze_entry.
  specialize (Hdir entry w).
  destruct (IO.entry_is_dir sys entry w) as [[[|]|] w1];
    simpl in Hdir; subst w1.
  - assert (Hsize := get_folder_size_frame limit (IO.entry_path sys entry) w).
    destruct (IO.get_folder_size sys limit _ w) as [[[n|]|] w2];
      simpl in Hsize; subst w2; reflexivity.
  - specialize (Hstat entry w).
    destruct (IO.entry_st_size sys entry w) as [[n|] w2];
      simpl in Hstat; subst w2; reflexivity.
  - reflexivity.
Qed.

Lemma analyze_entries_frame (limit : nat) (entries : list DirEntry) :
  forall items w, snd (IO.analyze_entries sys limit entries items w) = w.
Proof.
  induction entries as [| entry rest IH]; intros items w; simpl.
  - reflexivity.
  - assert (Hentry := analyze_entry_frame limit entry w).
    destruct (IO.analyze_entry sys limit entry w) as [[[it|]|] w1];
      simpl in Hentry; subst w1; solve [apply IH | reflexivity].
Qed.

Lemma analyze_directory_frame (limit : nat) (p : string) (w : world) :
  snd (IO.analyze_directory sys limit p w) = w.
Proof.
  unfold IO.analyze_directory.
  assert (Hscan := proj1 queries p w).
  destruct (IO.os_scandir sys p w) as [[entries|] w1];
    simpl in Hscan; subst w1; [|reflexivity].
  assert (Hloop := analyze_entries_frame limit entries [] w).
  destruct (IO.analyze_entries sys limit entries [] w) as [[[items|]|] w2];
    simpl in Hloop; subst w2; reflexivity.
Qed.

End Frame.

Lemma of_snapshot_read_only : IO.read_only IO.of_snapshot.
Proof. repeat split. Qed.

(** C8.  When the calls to the operating system are queries, a second
    call of [analyze_directory] on the same path, made in the state the
    first call leaves, has the outcome of the first: the same report, item
    by item and in the same order, or the same exception. *)
Theorem analyze_directory_repeatable
        {world DirEntry : Type} (sys : IO.OS world DirEntry)
        (limit : nat) (p : string) (w : world) :
  IO.read_only sys ->
  fst (IO.analyze_directory sys limit p
         (snd (IO.analyze_directory sys limit p w))) =
  fst (IO.analyze_directory sys limit p w).
Proof.
  intros Hro. now rewrite (analyze_directory_frame sys Hro).
Qed.

Lemma analyze_directory_repeatable_witness :
  IO.read_only IO.of_snapshot /\
  fst (IO.analyze_directory IO.of_snapshot 3 "top"
         (snd (IO.analyze_directory IO.of_snapshot 3 "top" top_fs))) =
  Some (Ok [mkItem "B" 35 true "top/B" None; mkItem "A" 0 true "top/A" None]).
Proof.
  split; [exact of_snapshot_read_only|].
  rewrite (analyze_directory_repeatable IO.of_snapshot 3 "top" top_fs
             of_snapshot_read_only).
  reflexivity.
Defined.

(** C10.  When the calls to the operating system are queries, neither
    [analyze_directory] nor [get_folder_size] changes the state of the
    operating system, whether the call returns, raises or exceeds the
    recursion limit. *)
Theorem analysis_read_only
        {world DirEntry : Type} (sys : IO.OS world DirEntry)
        (limit : nat) (p : string) (w : world) :
  IO.read_only sys ->
  snd (IO.analyze_directory sys limit p w) = w /\
  snd (IO.get_folder_size sys limit p w) = w.
Proof.
  intros Hro. split.
  - apply (analyze_directory_frame sys Hro).
  - apply (get_folder_size_frame sys Hro).
Qed.

Lemma analysis_read_only_witness :
  IO.read_only IO.of_snapshot /\
  snd (IO.analyze_directory IO.of_snapshot 3 "home" home_fs) = home_fs /\
  snd (IO.get_folder_size IO.of_snapshot 3 "home" home_fs) = home_fs.
Proof.
  split; [exact of_snapshot_read_only|].
  exact (analysis_read_only IO.of_snapshot 3 "home" home_fs
           of_snapshot_read_only).
Defined.

(** ** The two readings agree *)

(** Over the operating system that answers as the snapshot records, and
    within the recursion limit, the state-passing functions return what the
    functions over the snapshot return. *)

Lemma io_scan_entries_snapshot (fs : filesystem)
      (rec_io : string -> IO.M Z) (rec : DirEntry -> result Z)
      (entries : list DirEntry) :
  Forall (fun entry => rec_io (entry_path entry) fs = (Some (rec entry), fs))
         entries ->
  forall total,
    IO.scan_entries IO.of_snapshot rec_io entries total fs =
    (Some (scan_entries rec entries total), fs).
Proof.
  induction 1 as [| entry rest Hentry _ IH]; intros total; simpl.
  - reflexivity.
  - destruct (entry_is_file entry) as [[|]|]; [| |reflexivity].
    + destruct (entry_st_size entry) as [n|]; apply IH.
    + destruct (entry_is_dir entry) as [[|]|]; [| apply IH | reflexivity].
      rewrite Hentry. destruct (rec entry) as [n|]; apply IH.
Qed.

Lemma io_get_folder_size_snapshot (fs : filesystem) (entry : DirEntry) :
  IO.recorded fs entry ->
  forall limit,
    (IO.depth entry <= limit)%nat ->
    IO.get_folder_size IO.of_snapshot limit (entry_path entry) fs =
    (Some (get_entry_size entry), fs).
Proof.
  induction entry as [entry IH] using DirEntry_tree_ind.
  intros Hrec limit Hlimit.
  inversion Hrec as [entry' Hfs Hsub]; subst entry'.
  rewrite get_entry_size_unfold.
  destruct limit as [| limit].
  - exfalso. destruct entry as [nm p f d s [entries|]]; simpl in Hlimit; lia.
  - simpl. rewrite Hfs.
    destruct (entry_scandir entry) as [entries|] eqn:Hscan; [|reflexivity].
    assert (Hdepth : (list_max (map IO.depth entries) <= limit)%nat).
    { destruct entry as [nm p f d s folder]; simpl in *; subst folder.
      lia. }
    rewrite (io_scan_entries_snapshot fs _ get_entry_size entries).
    + reflexivity.
    + specialize (Hsub entries eq_refl).
      apply list_max_le in Hdepth. rewrite Forall_map in Hdepth.
      rewrite Forall_forall in *.
      intros child Hchild.
      apply (IH child Hchild (Hsub child Hchild)), Hdepth, Hchild.
Qed.

Lemma io_analyze_entry_snapshot (fs : filesystem) (entry : DirEntry)
      (limit : nat) :
  IO.recorded fs entry ->
  (IO.depth entry <= limit)%nat ->
  IO.analyze_entry IO.of_snapshot limit entry fs =
  (Some (analyze_entry entry), fs).
Proof.
  intros Hrec Hlimit. unfold IO.analyze_entry, analyze_entry, read_size. simpl.
  destruct (entry_is_dir entry) as [[|]|]; [| |reflexivity].
  - rewrite (io_get_folder_size_snapshot fs entry Hrec limit Hlimit).
    rewrite get_entry_size_unfold, get_folder_size_returns. reflexivity.
  - destruct (entry_st_size entry); reflexivity.
Qed.

Lemma io_analyze_directory_snapshot (fs : filesystem) (p : string)
      (limit : nat) :
  (forall entries, fs p = Ok entries ->
                   Forall (IO.recorded fs) entries) ->
  (IO.folder_depth (fs p) <= S limit)%nat ->
  IO.analyze_directory IO.of_snapshot limit p fs =
  (Some (analyze_directory fs p), fs).
Proof.
  intros Hrec Hlimit.
  unfold IO.analyze_directory, analyze_directory. simpl.
  destruct (fs p) as [entries|]; [|reflexivity].
  specialize (Hrec entries eq_refl). simpl in Hlimit.
  assert (Hdepth : Forall (fun entry => (IO.depth entry <= limit)%nat) entries).
  { apply (proj1 (Forall_map IO.depth (fun k => (k <= limit)%nat) entries)).
    apply list_max_le. lia. }
  assert (Hloop : forall items,
             IO.analyze_entries IO.of_snapshot limit entries items fs =
             (Some (analyze_entries entries items), fs)).
  { clear Hlimit.
    induction entries as [| entry rest IH]; intros items; simpl.
    - reflexivity.
    - inversion Hrec; inversion Hdepth; subst.
      rewrite io_analyze_entry_snapshot by assumption.
      destruct (analyze_entry entry) as [it|]; [|reflexivity].
      now apply IH. }
  rewrite Hloop.
  destruct (analyze_entries entries []); reflexivity.
Qed.

(** ** Sizes for the reader: checks *)

Example format_size_samples :
  Format.format_size 0 = Some "0 B" /\
  Format.format_size (-5) = Some "-5 B" /\
  Format.format_size 1023 = Some "1023 B" /\
  Format.format_size 1024 = Some "1.00 KB" /\
  Format.format_size 1152 = Some "1.12 KB" /\
  Format.format_size 1536 = Some "1.50 KB" /\
  Format.format_size 1048575 = Some "1024.00 KB" /\
  Format.format_size 1048576 = Some "1.00 MB" /\
  Format.format_size 5368709120 = Some "5.00 GB" /\
  Format.format_size 123456789012 = Some "114.98 GB".
Proof. repeat split; vm_compute; reflexivity. Qed.

(** ** More on the size of a folder *)

Lemma sizes_read_beneath_unfold (entry : DirEntry) :
  sizes_read_beneath entry =
  match entry_is_file entry with
  | Ok true =>
      match entry_st_size entry with Ok n => [n] | Raise _ => [] end
  | _ =>
      match entry_is_dir entry with
      | Ok true =>
          match entry_scandir entry with
          | Ok sub => flat_map sizes_read_beneath sub
          | Raise _ => []
          end
      | _ => []
      end
  end.
Proof. destruct entry; reflexivity. Qed.

Lemma sizes_nonneg_unfold (entry : DirEntry) :
  sizes_nonneg entry = true ->
  (forall n, entry_st_size entry = Ok n -> 0 <= n) /\
  (forall sub, entry_scandir entry = Ok sub ->
               forallb sizes_nonneg sub = true).
Proof.
  destruct entry as [nm p f d s folder]; simpl. intros H.
  apply andb_true_iff in H. destruct H as [Hs Hsub]. split.
  - intros n ->. now apply Z.leb_le.
  - intros sub ->. exact Hsub.
Qed.

Lemma flat_map_sum_nonneg (entries : list DirEntry) :
  Forall (fun entry => sizes_nonneg entry = true ->
                       0 <= sum_Z (sizes_read_beneath entry)) entries ->
  forallb sizes_nonneg entries = true ->
  0 <= sum_Z (flat_map sizes_read_beneath entries).
Proof.
  induction 1 as [| entry rest Hentry _ IH]; simpl; intros H.
  - unfold sum_Z; simpl; lia.
  - apply andb_true_iff in H. destruct H as [He Hrest].
    rewrite sum_Z_app. specialize (Hentry He). specialize (IH Hrest). lia.
Qed.

Lemma sizes_read_beneath_nonneg (entry : DirEntry) :
  sizes_nonneg entry = true -> 0 <= sum_Z (sizes_read_beneath entry).
Proof.
  induction entry as [entry IH] using DirEntry_tree_ind.
  intros He. destruct (sizes_nonneg_unfold entry He) as [Hs Hsub].
  rewrite sizes_read_beneath_unfold.
  assert (Hdir :
            0 <= sum_Z match entry_is_dir entry with
                       | Ok true =>
                           match entry_scandir entry with
                           | Ok sub => flat_map sizes_read_beneath sub
                           | Raise _ => []
                           end
                       | _ => []
                       end).
  { destruct (entry_is_dir entry) as [[|]|]; try (unfold sum_Z; simpl; lia).
    destruct (entry_scandir entry) as [sub|]; [|unfold sum_Z; simpl; lia].
    apply flat_map_sum_nonneg; [exact IH | now apply Hsub]. }
  destruct (entry_is_file entry) as [[|]|]; try exact Hdir.
  destruct (entry_st_size entry) as [n|]; unfold sum_Z; simpl; [|lia].
  specialize (Hs n eq_refl). lia.
Qed.

Lemma scan_entries_at_most (entries : list DirEntry) :
  Forall (fun entry =>
            sizes_nonneg entry = true ->
            sizeOf entry <=
            sum_Z match entry_scandir entry with
                  | Ok sub => flat_map sizes_read_beneath sub
                  | Raise _ => []
                  end) entries ->
  forallb sizes_nonneg entries = true ->
  scan_entries get_entry_size entries 0 <=
  sum_Z (flat_map sizes_read_beneath entries).
Proof.
  induction 1 as [| entry rest Hentry _ IH]; simpl; intros H.
  - unfold sum_Z; simpl; lia.
  - apply andb_true_iff in H. destruct H as [He Hrest].
    specialize (IH Hrest). specialize (Hentry He).
    assert (Hrest0 : 0 <= sum_Z (flat_map sizes_read_beneath rest)).
    { apply flat_map_sum_nonneg; [|exact Hrest].
      apply Forall_forall. intros x _. apply sizes_read_beneath_nonneg. }
    assert (He0 := sizes_read_beneath_nonneg entry He).
    rewrite sum_Z_app. rewrite sizes_read_beneath_unfold in *.
    destruct (entry_is_file entry) as [[|]|].
    + destruct (entry_st_size entry) as [n|]; rewrite scan_entries_acc;
        unfold sum_Z in *; simpl in *; lia.
    + destruct (entry_is_dir entry) as [[|]|].
      * rewrite get_entry_size_sizeOf, scan_entries_acc. lia.
      * unfold sum_Z in *; simpl in *; lia.
      * lia.
    + lia.
Qed.

Lemma sizeOf_at_most (entry : DirEntry) :
  sizes_nonneg entry = true ->
  sizeOf entry <=
  sum_Z match entry_scandir entry with
        | Ok sub => flat_map sizes_read_beneath sub
        | Raise _ => []
        end.
Proof.
  induction entry as [entry IH] using DirEntry_tree_ind.
  intros He. destruct (sizes_nonneg_unfold entry He) as [_ Hsub].
  unfold sizeOf.
  destruct (entry_scandir entry) as [sub|]; [|unfold sum_Z; simpl; lia].
  simpl. apply scan_entries_at_most; [exact IH | now apply Hsub].
Qed.

(** X1.  Whatever fails beneath a folder, [get_folder_size] does not
    count more than there is: when the file system reports byte counts,
    the result lies between 0 and the sum of the byte lengths that can be
    read beneath the folder. *)
Theorem get_folder_size_never_overcounts (entries : list DirEntry) :
  forallb sizes_nonneg entries = true ->
  exists n,
    get_folder_size (Ok entries) = Ok n /\
    0 <= n <= sum_Z (flat_map sizes_read_beneath entries).
Proof.
  intros H. exists (scan_entries get_entry_size entries 0).
  split; [reflexivity|]. split.
  - apply scan_entries_nonneg; [|exact H|lia].
    apply Forall_forall. intros e _ He n Hn.
    rewrite get_entry_size_sizeOf in Hn. injection Hn as <-.
    now apply sizeOf_nonneg.
  - apply scan_entries_at_most; [|exact H].
    apply Forall_forall. intros e _. apply sizeOf_at_most.
Qed.

Lemma get_folder_size_never_overcounts_witness :
  exists n,
    get_folder_size
      (Ok [dangling_link; regular_file "notes.txt" "home/notes.txt" 7]) =
    Ok n /\ 0 <= n <= 7.
Proof.
  exact (get_folder_size_never_overcounts
           [dangling_link; regular_file "notes.txt" "home/notes.txt" 7]
           eq_refl).
Defined.

Lemma get_folder_size_tolerates_failures_aux (entries : list DirEntry) :
  forallb kinds_known entries = true ->
  get_folder_size (Ok entries) =
  Ok (sum_Z (flat_map sizes_read_beneath entries)).
Proof.
  intros H. unfold get_folder_size, folder_size_body. f_equal.
  apply scan_entries_sizes_read; [|exact H].
  apply Forall_forall. intros e _. apply sizeOf_sizes_read.
Qed.

(** X2.  A file whose size cannot be read and a subdirectory that cannot
    be listed do not stop the count of their siblings: when [is_file()]
    and [is_dir()] answer for every entry beneath a folder,
    [get_folder_size] returns the sum of all byte lengths that can be read
    beneath it. *)
Theorem get_folder_size_tolerates_failures (entries : list DirEntry) :
  forallb kinds_known entries = true ->
  get_folder_size (Ok entries) =
  Ok (sum_Z (flat_map sizes_read_beneath entries)).
Proof. exact (get_folder_size_tolerates_failures_aux entries). Qed.

Lemma get_folder_size_tolerates_failures_witness :
  get_folder_size
    (Ok [unreadable_file "b.txt" "top/b.txt"; sibling_A; sibling_B]) = Ok 35.
Proof.
  exact (get_folder_size_tolerates_failures
           [unreadable_file "b.txt" "top/b.txt"; sibling_A; sibling_B]
           eq_refl).
Defined.

Lemma sum_Z_perm (l1 l2 : list Z) :
  Permutation l1 l2 -> sum_Z l1 = sum_Z l2.
Proof.
  induction 1; unfold sum_Z in *; simpl; lia.
Qed.

Lemma forallb_perm {A : Type} (f : A -> bool) (l1 l2 : list A) :
  Permutation l1 l2 -> forallb f l1 = true -> forallb f l2 = true.
Proof.
  intros Hp H. rewrite forallb_forall in *.
  intros x Hx. apply H. eapply Permutation_in; [|exact Hx].
  now apply Permutation_sym.
Qed.

(** X3.  The order in which [os.scandir] yields the entries does not
    matter to the size of a folder when [is_file()] and [is_dir()] answer
    for every entry beneath it. *)
Theorem get_folder_size_order_independent (entries entries' : list DirEntry) :
  Permutation entries entries' ->
  forallb kinds_known entries = true ->
  get_folder_size (Ok entries) = get_folder_size (Ok entries').
Proof.
  intros Hp H.
  rewrite (get_folder_size_tolerates_failures_aux entries H).
  rewrite (get_folder_size_tolerates_failures_aux entries'
             (forallb_perm _ _ _ Hp H)).
  f_equal. apply sum_Z_perm, Permutation_flat_map, Hp.
Qed.

Lemma get_folder_size_order_independent_witness :
  get_folder_size (Ok [sibling_A; sibling_B]) =
  get_folder_size (Ok [sibling_B; sibling_A]).
Proof.
  exact (get_folder_size_order_independent
           [sibling_A; sibling_B] [sibling_B; sibling_A]
           (perm_swap _ _ _) eq_refl).
Defined.

(** ** More on the report *)

Lemma analyze_entries_raise (entries : list DirEntry) :
  forall acc x,
    analyze_entries entries acc = Raise x <->
    exists before child rest,
      entries = before ++ child :: rest /\
      Forall (fun entry => exists b, entry_is_dir entry = Ok b) before /\
      entry_is_dir child = Raise x.
Proof.
  induction entries as [| entry tl IH]; intros acc x; simpl.
  - split; [discriminate|].
    intros (before & child & rest & H & _). now destruct before.
  - unfold analyze_entry at 1.
    destruct (entry_is_dir entry) as [isd|e] eqn:Hd.
    + destruct (read_size entry isd) as [n|e']; rewrite IH; split.
      all: try (intros (before & child & rest & -> & Hb & Hc);
                exists (entry :: before), child, rest;
                repeat split; [constructor; eauto | exact Hc]).
      all: intros ([| e0 before] & child & rest & Heq & Hb & Hc);
        simpl in Heq; injection Heq as <- Heq;
        [congruence | inversion Hb; subst; eauto 6].
    + split.
      * intros [= <-]. exists [], entry, tl. repeat split; auto.
      * intros ([| e0 before] & child & rest & Heq & Hb & Hc);
          simpl in Heq; injection Heq as <- Heq.
        -- congruence.
        -- inversion Hb as [| ? ? [b Hb0] ?]; subst. congruence.
Qed.

(** X4.  [analyze_directory] raises in two cases only: the listing of the
    directory fails, or [is_dir()] raises for a child, the first such
    child deciding; the exception raised is built from that failure, with
    the path in its text and the failure as its cause.  A failure of
    [stat()] or beneath a subdirectory never leaves the call. *)
Theorem analyze_directory_raises_iff
        (fs : filesystem) (p : string) (x : exn) :
  analyze_directory fs p = Raise x <->
  (exists e, fs p = Raise e /\ x = scan_error p e) \/
  (exists before child rest e,
      fs p = Ok (before ++ child :: rest) /\
      Forall (fun entry => exists b, entry_is_dir entry = Ok b) before /\
      entry_is_dir child = Raise e /\
      x = scan_error p e).
Proof.
  unfold analyze_directory.
  destruct (fs p) as [entries|e0].
  - destruct (analyze_entries entries []) as [items|e] eqn:E.
    + split; [discriminate|].
      intros [(e & H & _) | (before & child & rest & e & H & Hb & Hc & _)];
        [discriminate|].
      injection H as ->.
      assert (Hr : analyze_entries (before ++ child :: rest) [] = Raise e)
        by (apply analyze_entries_raise; eauto 6).
      congruence.
    + apply analyze_entries_raise in E.
      destruct E as (before & child & rest & -> & Hb & Hc).
      split.
      * intros [= <-]. right. exists before, child, rest, e. auto.
      * intros [(e' & H & _) | (b' & c' & r' & e' & H & Hb' & Hc' & ->)];
          [discriminate|].
        assert (Hr : analyze_entries (b' ++ c' :: r') [] = Raise e')
          by (apply analyze_entries_raise; eauto 6).
        injection H as H. rewrite <- H in Hr.
        assert (Hr0 : analyze_entries (before ++ child :: rest) [] = Raise e)
          by (apply analyze_entries_raise; eauto 6).
        congruence.
  - split.
    + intros [= <-]. left. eauto.
    + intros [(e & H & ->) | (before & child & rest & e & H & _)];
        [congruence | discriminate].
Qed.

(** X5.  The report never marks a directory: an item with the key [error]
    is no directory, has size 0, and its text is that of the failure of
    [stat()]. *)
Theorem analyze_directory_marks_files_only
        (fs : filesystem) (p : string) (items : list item) (it : item) :
  analyze_directory fs p = Ok items ->
  In it items ->
  error it <> None ->
  is_dir it = false /\ size it = 0 /\
  exists entries entry e,
    fs p = Ok entries /\ In entry entries /\
    entry_name entry = name it /\ entry_path entry = path it /\
    entry_st_size entry = Raise e /\ error it = Some (item_error e).
Proof.
  intros H Hin Herr.
  destruct (analyze_directory_ok fs p items H)
    as (entries & listed & Hfs & Hall & ->).
  apply (Permutation_in _ (sort_by_size_desc_perm listed)) in Hin.
  assert (Hentry : exists entry, In entry entries /\ analyze_entry entry = Ok it).
  { clear -Hall Hin. induction Hall as [| entry i rest l Hi _ IH].
    - destruct Hin.
    - destruct Hin as [<- | Hin].
      + exists entry. split; [now left | exact Hi].
      + destruct (IH Hin) as (e & He & Hit). exists e. split; [now right | exact Hit]. }
  destruct Hentry as (entry & Hentry & Hit).
  revert Hit. unfold analyze_entry.
  destruct (entry_is_dir entry) as [[|]|] eqn:Hd; [| |discriminate].
  - unfold read_size. rewrite get_folder_size_returns.
    intros [= <-]. now simpl in Herr.
  - unfold read_size.
    destruct (entry_st_size entry) as [n|e] eqn:Hs; intros [= <-];
      simpl in *; [congruence|].
    repeat split. exists entries, entry, e. auto 7.
Qed.

Lemma analyze_directory_marks_files_only_witness :
  is_dir (mkItem "b.txt" 0 false "docs/b.txt" (Some "权限不足")) = false /\
  size (mkItem "b.txt" 0 false "docs/b.txt" (Some "权限不足")) = 0.
Proof.
  destruct (analyze_directory_marks_files_only
              (mount "docs" (Ok [unreadable_file "b.txt" "docs/b.txt";
                                 regular_file "a.txt" "docs/a.txt" 10]))
              "docs" _ (mkItem "b.txt" 0 false "docs/b.txt" (Some "权限不足"))
              eq_refl (or_intror (or_introl eq_refl)))
    as (H1 & H2 & _).
  - discriminate.
  - split; assumption.
Defined.

(** X6.  The first item of a report is a largest one: no item of the
    report is larger than the first. *)
Theorem analyze_directory_largest_first
        (fs : filesystem) (p : string) (first : item) (rest : list item) :
  analyze_directory fs p = Ok (first :: rest) ->
  forall it, In it rest -> size it <= size first.
Proof.
  intros H it Hin.
  destruct (analyze_directory_ok fs p _ H) as (entries & listed & _ & _ & Hs).
  assert (Hsorted := sort_by_size_desc_sorted listed).
  rewrite <- Hs in Hsorted.
  inversion Hsorted as [| ? ? _ Hall]; subst.
  rewrite Forall_forall in Hall. exact (Hall it Hin).
Qed.

Lemma analyze_directory_largest_first_witness :
  size (mkItem "x" 100 false "d/x" None) <=
  size (mkItem "w" 300 false "d/w" None).
Proof.
  exact (analyze_directory_largest_first four_fs "d" _ _ eq_refl
           (mkItem "x" 100 false "d/x" None)
           (or_intror (or_introl eq_refl))).
Defined.

(** ** The recursion limit *)

Section Limit.

Context {world DirEntry : Type} (sys : IO.OS world DirEntry).

Lemma io_scan_entries_mono (rec rec' : string -> IO.M Z) :
  (forall p w r w', rec p w = (Some r, w') -> rec' p w = (Some r, w')) ->
  forall entries total w n w',
    IO.scan_entries sys rec entries total w = (Some n, w') ->
    IO.scan_entries sys rec' entries total w = (Some n, w').
Proof.
  intros Hrec.
  induction entries as [| entry rest IH]; intros total w n w'; simpl.
  - auto.
  - destruct (IO.entry_is_file sys entry w) as [[[|]|] w1]; auto.
    + destruct (IO.entry_st_size sys entry w1) as [[k|] w2]; apply IH.
    + destruct (IO.entry_is_dir sys entry w1) as [[[|]|] w2]; auto.
      destruct (rec (IO.entry_path sys entry) w2) as [[r|] w3] eqn:E.
      * rewrite (Hrec _ _ _ _ E). destruct r; apply IH.
      * discriminate.
Qed.

Lemma io_get_folder_size_mono (limit : nat) :
  forall limit' p w r w',
    (limit <= limit')%nat ->
    IO.get_folder_size sys limit p w = (Some r, w') ->
    IO.get_folder_size sys limit' p w = (Some r, w').
Proof.
  induction limit as [| limit IH]; intros limit' p w r w' Hle; simpl.
  - discriminate.
  - destruct limit' as [| limit']; [lia|]. simpl.
    destruct (IO.os_scandir sys p w) as [[entries|] w1]; auto.
    destruct (IO.scan_entries sys (IO.get_folder_size sys limit) entries 0 w1)
      as [[n|] w2] eqn:E; [|discriminate].
    rewrite (io_scan_entries_mono _ (IO.get_folder_size sys limit')
               (fun p w r w' => IH limit' p w r w' ltac:(lia)) _ _ _ _ _ E).
    auto.
Qed.

Lemma io_analyze_entries_mono (limit limit' : nat) :
  (limit <= limit')%nat ->
  forall entries items w r w',
    IO.analyze_entries sys limit entries items w = (Some r, w') ->
    IO.analyze_entries sys limit' entries items w = (Some r, w').
Proof.
  intros Hle.
  induction entries as [| entry rest IH]; intros items w r w'; simpl.
  - auto.
  - unfold IO.analyze_entry.
    destruct (IO.entry_is_dir sys entry w) as [[[|]|] w1]; auto.
    + destruct (IO.get_folder_size sys limit (IO.entry_path sys entry) w1)
        as [[s|] w2] eqn:E; [|discriminate].
      rewrite (io_get_folder_size_mono _ _ _ _ _ _ Hle E).
      destruct s; apply IH.
    + destruct (IO.entry_st_size sys entry w1) as [[n|] w2]; apply IH.
Qed.

End Limit.

(** X7.  The recursion limit decides only whether an outcome is reached:
    the report or the exception that [analyze_directory] gives within a
    limit is the one it gives within every larger limit, in the same state
    of the operating system. *)
Theorem analyze_directory_limit_monotone
        {world DirEntry : Type} (sys : IO.OS world DirEntry)
        (limit limit' : nat) (p : string) (w w' : world)
        (r : result (list item)) :
  (limit <= limit')%nat ->
  IO.analyze_directory sys limit p w = (Some r, w') ->
  IO.analyze_directory sys limit' p w = (Some r, w').
Proof.
  intros Hle. unfold IO.analyze_directory.
  destruct (IO.os_scandir sys p w) as [[entries|] w1]; auto.
  destruct (IO.analyze_entries sys limit entries [] w1) as [[s|] w2] eqn:E;
    [|discriminate].
  rewrite (io_analyze_entries_mono sys limit limit' Hle _ _ _ _ _ E). auto.
Qed.

Lemma analyze_directory_limit_monotone_witness :
  IO.analyze_directory IO.of_snapshot 7 "top" top_fs =
  (Some (Ok [mkItem "B" 35 true "top/B" None;
             mkItem "A" 0 true "top/A" None]), top_fs).
Proof.
  apply (analyze_directory_limit_monotone IO.of_snapshot 3 7 "top" top_fs).
  - repeat constructor.
  - reflexivity.
Defined.

(** ** The drives of the machine: properties *)

Lemma mounted_drives_filter (h : Drives.host) (available : list string) :
  forall drives,
    Drives.mounted_drives h available drives =
    drives ++ map Drives.drive_root (filter (Drives.is_mounted h) available).
Proof.
  induction available as [| drive rest IH]; intros drives; simpl.
  - now rewrite app_nil_r.
  - unfold Drives.is_mounted at 1.
    destruct (Drives.path_ismount h (Drives.drive_root drive)) as [[|]|];
      rewrite IH; simpl; [now rewrite <- app_assoc | reflexivity..].
Qed.

Lemma get_available_drives_win32 (h : Drives.host) :
  Drives.platform h = "win32" ->
  fst (Drives.get_available_drives h) =
  map (fun d => Drives.drive_root (Drives.drive_name d))
      (filter (fun d => Drives.path_exists h (Drives.drive_name d) &&
                        Drives.is_mounted h (Drives.drive_name d))
              Drives.ascii_uppercase).
Proof.
  intros Hp. unfold Drives.get_available_drives. rewrite Hp.
  change (String.eqb "win32" "win32") with true.
  cbv beta iota zeta delta [fst].
  rewrite mounted_drives_filter.
  change (@nil string ++ ?l) with l.
  generalize Drives.ascii_uppercase as letters.
  induction letters as [| d rest IH]; simpl.
  - reflexivity.
  - destruct (Drives.path_exists h (Drives.drive_name d)); simpl.
    + destruct (Drives.is_mounted h (Drives.drive_name d)); simpl;
        now rewrite IH.
    + exact IH.
Qed.

(** X8.  On Windows [get_available_drives] returns exactly the roots
    [L:\\] of the letters [L] from A to Z for which [os.path.exists('L:')]
    holds and [os.path.ismount('L:\\')] answers [True]; a drive for which
    [os.path.ismount] raises is left out and the others are kept.  On any
    other platform it returns no drive and prints one line. *)
Theorem get_available_drives_exact (h : Drives.host) :
  (Drives.platform h = "win32" ->
   snd (Drives.get_available_drives h) = [] /\
   forall drive,
     In drive (fst (Drives.get_available_drives h)) <->
     exists d,
       In d Drives.ascii_uppercase /\
       drive = Drives.drive_root (Drives.drive_name d) /\
       Drives.path_exists h (Drives.drive_name d) = true /\
       Drives.path_ismount h (Drives.drive_root (Drives.drive_name d)) =
       Ok true) /\
  (Drives.platform h <> "win32" ->
   Drives.get_available_drives h = ([], ["当前仅支持 Windows 系统。"])).
Proof.
  split.
  - intros Hp. split.
    + unfold Drives.get_available_drives. rewrite Hp.
      change (String.eqb "win32" "win32") with true. reflexivity.
    + intros drive. rewrite (get_available_drives_win32 h Hp), in_map_iff.
      split.
      * intros (d & <- & Hd). apply filter_In in Hd.
        destruct Hd as [Hin Hd]. apply andb_true_iff in Hd.
        destruct Hd as [Hex Hm]. exists d. repeat split; try assumption.
        unfold Drives.is_mounted in Hm.
        destruct (Drives.path_ismount h _) as [[|]|]; congruence.
      * intros (d & Hin & -> & Hex & Hm). exists d. split; [reflexivity|].
        apply filter_In. split; [exact Hin|].
        unfold Drives.is_mounted. now rewrite Hex, Hm.
  - intros Hp. unfold Drives.get_available_drives.
    destruct (String.eqb_spec (Drives.platform h) "win32"); [contradiction|].
    reflexivity.
Qed.

Lemma get_available_drives_exact_witness :
  Drives.get_available_drives Drives.sample_host = (["C:\"], []) /\
  In "C:\" (fst (Drives.get_available_drives Drives.sample_host)).
Proof.
  split; [reflexivity|].
  apply (proj2 (proj1 (get_available_drives_exact Drives.sample_host)
                  eq_refl)).
  exists "C"%char. repeat split. vm_compute. tauto.
Defined.

Lemma all_roots_NoDup : NoDup Drives.all_roots.
Proof.
  assert (H : nodup string_dec Drives.all_roots = Drives.all_roots)
    by (vm_compute; reflexivity).
  rewrite <- H. apply NoDup_nodup.
Qed.

Lemma filter_map_swap {A B : Type} (f : A -> B) (keep : A -> bool)
      (keep' : B -> bool) (l : list A) :
  (forall a, In a l -> keep' (f a) = keep a) ->
  map f (filter keep l) = filter keep' (map f l).
Proof.
  induction l as [| a r IH]; simpl; intros H.
  - reflexivity.
  - rewrite (H a (or_introl eq_refl)).
    destruct (keep a); simpl; rewrite IH; auto.
Qed.

(** X9.  Whatever the platform and whatever the operating system answers,
    the drives [get_available_drives] returns are some of the 26 roots
    [A:\\] ... [Z:\\], each at most once and in the order of the
    alphabet. *)
Theorem get_available_drives_shape (h : Drives.host) :
  let drives := fst (Drives.get_available_drives h) in
  (exists keep, drives = filter keep Drives.all_roots) /\
  NoDup drives /\
  (List.length drives <= 26)%nat.
Proof.
  assert (Hsub : exists keep,
             fst (Drives.get_available_drives h) =
             filter keep Drives.all_roots).
  { destruct (String.eqb_spec (Drives.platform h) "win32") as [Hp | Hp].
    - rewrite (get_available_drives_win32 h Hp).
      exists (fun root =>
                match root with
                | String d _ =>
                    Drives.path_exists h (Drives.drive_name d) &&
                    Drives.is_mounted h (Drives.drive_name d)
                | EmptyString => false
                end).
      unfold Drives.all_roots. apply filter_map_swap. reflexivity.
    - exists (fun _ => false).
      unfold Drives.get_available_drives.
      destruct (String.eqb_spec (Drives.platform h) "win32");
        [contradiction|].
      change (@nil string = filter (fun _ => false) Drives.all_roots).
      clear. induction Drives.all_roots; simpl; auto. }
  destruct Hsub as [keep Hkeep]. cbv zeta. rewrite Hkeep.
  split; [eauto|]. split.
  - apply NoDup_filter, all_roots_NoDup.
  - transitivity (List.length Drives.all_roots).
    + clear. induction Drives.all_roots as [| r l IH]; simpl.
      * lia.
      * destruct (keep r); simpl; lia.
    + vm_compute. lia.
Qed.

(** ** Sizes for the reader: properties *)

Lemma div_half_even_close (a b : Z) :
  0 < b ->
  - b <= 2 * a - 2 * (b * Format.div_half_even a b) <= b.
Proof.
  intros Hb. unfold Format.div_half_even.
  assert (Hdiv := Z.div_mod a b ltac:(lia)).
  assert (Hmod := Z.mod_pos_bound a b Hb).
  destruct (2 * (a mod b) <? b) eqn:E1; [apply Z.ltb_lt in E1; lia|].
  apply Z.ltb_ge in E1.
  destruct (b <? 2 * (a mod b)) eqn:E2; [apply Z.ltb_lt in E2; lia|].
  apply Z.ltb_ge in E2.
  destruct (Z.even (a / b)); lia.
Qed.

Lemma div_half_even_mono (a a' b : Z) :
  0 < b -> a <= a' ->
  Format.div_half_even a b <= Format.div_half_even a' b.
Proof.
  intros Hb Hle.
  assert (Hq := Z.div_le_mono a a' b Hb Hle).
  assert (Hdiv := Z.div_mod a b ltac:(lia)).
  assert (Hdiv' := Z.div_mod a' b ltac:(lia)).
  assert (Hmod := Z.mod_pos_bound a b Hb).
  assert (Hmod' := Z.mod_pos_bound a' b Hb).
  assert (Hlow : forall c, c / b <= Format.div_half_even c b <= c / b + 1).
  { intros c. unfold Format.div_half_even.
    destruct (2 * (c mod b) <? b); [lia|].
    destruct (b <? 2 * (c mod b)); [lia|].
    destruct (Z.even (c / b)); lia. }
  destruct (Z.eq_dec (a / b) (a' / b)) as [Heq | Hne].
  - assert (Hr : a mod b <= a' mod b) by (rewrite Heq in Hdiv; lia).
    unfold Format.div_half_even. rewrite Heq.
    destruct (2 * (a mod b) <? b) eqn:E1.
    + destruct (2 * (a' mod b) <? b); [lia|].
      destruct (b <? 2 * (a' mod b)); [lia|].
      destruct (Z.even (a' / b)); lia.
    + apply Z.ltb_ge in E1.
      destruct (2 * (a' mod b) <? b) eqn:E1'; [apply Z.ltb_lt in E1'; lia|].
      destruct (b <? 2 * (a mod b)) eqn:E2.
      * apply Z.ltb_lt in E2.
        destruct (b <? 2 * (a' mod b)) eqn:E2'; [lia|].
        apply Z.ltb_ge in E2'. lia.
      * destruct (b <? 2 * (a' mod b)); destruct (Z.even (a' / b)); lia.
  - specialize (Hlow a) as Ha. specialize (Hlow a') as Ha'. lia.
Qed.

Lemma round53_small (x : Z) : 0 < x < 2 ^ 53 -> Format.round53 x = x.
Proof.
  intros [Hpos Hlt]. unfold Format.round53.
  apply (Z.log2_lt_pow2 x 53 Hpos) in Hlt.
  destruct (Z.log2 x + 1 <=? 53) eqn:E; [reflexivity|].
  apply Z.leb_gt in E. lia.
Qed.

Lemma in_unit_small (x scale : Z) (unit : string) :
  0 < x < 2 ^ 53 -> 0 <= scale ->
  Format.in_unit x scale unit =
  Some (Format.fixed2 (Format.div_half_even (100 * x) (2 ^ scale)) ++ unit)%string.
Proof.
  intros Hx Hs. unfold Format.in_unit, Format.true_div_pow2.
  rewrite (round53_small x Hx).
  assert (Hpow : 2 ^ 53 <= 2 ^ (1024 + scale))
    by (apply Z.pow_le_mono_r; lia).
  destruct (x <? 2 ^ (1024 + scale)) eqn:E; [reflexivity|].
  apply Z.ltb_ge in E. lia.
Qed.

Lemma unit_of_cases (x : Z) :
  (x < 1024 /\ Format.unit_of x = (" B", 0)) \/
  (1024 <= x < 1024 ^ 2 /\ Format.unit_of x = (" KB", 10)) \/
  (1024 ^ 2 <= x < 1024 ^ 3 /\ Format.unit_of x = (" MB", 20)) \/
  (1024 ^ 3 <= x /\ Format.unit_of x = (" GB", 30)).
Proof.
  unfold Format.unit_of.
  destruct (x <? 1024) eqn:E1; [apply Z.ltb_lt in E1; auto|].
  apply Z.ltb_ge in E1.
  destruct (x <? 1024 ^ 2) eqn:E2; [apply Z.ltb_lt in E2; auto|].
  apply Z.ltb_ge in E2.
  destruct (x <? 1024 ^ 3) eqn:E3; [apply Z.ltb_lt in E3; auto 6|].
  apply Z.ltb_ge in E3. auto 6.
Qed.

Lemma format_size_figure (x : Z) :
  1024 <= x < 2 ^ 53 ->
  Format.format_size x =
  Some (Format.fixed2 (Format.figure x) ++ fst (Format.unit_of x))%string.
Proof.
  intros Hx. unfold Format.format_size, Format.figure.
  destruct (unit_of_cases x) as [[H U] | [[H U] | [[H U] | [H U]]]];
    rewrite U; simpl fst; simpl snd.
  - lia.
  - destruct (x <? 1024) eqn:E1; [apply Z.ltb_lt in E1; lia|].
    destruct (x <? 1024 ^ 2) eqn:E2; [|apply Z.ltb_ge in E2; lia].
    apply in_unit_small; lia.
  - destruct (x <? 1024) eqn:E1; [apply Z.ltb_lt in E1; lia|].
    destruct (x <? 1024 ^ 2) eqn:E2; [apply Z.ltb_lt in E2; lia|].
    destruct (x <? 1024 ^ 3) eqn:E3; [|apply Z.ltb_ge in E3; lia].
    apply in_unit_small; lia.
  - destruct (x <? 1024) eqn:E1; [apply Z.ltb_lt in E1; lia|].
    destruct (x <? 1024 ^ 2) eqn:E2; [apply Z.ltb_lt in E2; lia|].
    destruct (x <? 1024 ^ 3) eqn:E3; [apply Z.ltb_lt in E3; lia|].
    apply in_unit_small; lia.
Qed.

(** X10.  For a size below 2^53 bytes [format_size] does not fail; it
    shows a size below 1024 as the integer itself followed by [B], and a
    larger one in KB below 1024^2, in MB below 1024^3 and in GB from there
    on, as a figure with two decimals that is off the exact quotient by
    half a hundredth at most. *)
Theorem format_size_accurate (x : Z) :
  x < 2 ^ 53 ->
  (x < 1024 -> Format.format_size x = Some (Format.str x ++ " B")%string) /\
  (1024 <= x ->
   let (unit, scale) := Format.unit_of x in
   Format.format_size x = Some (Format.fixed2 (Format.figure x) ++ unit)%string /\
   - 2 ^ scale <= 2 * (100 * x) - 2 * (2 ^ scale * Format.figure x)
     <= 2 ^ scale /\
   (unit, scale) = (if x <? 1024 ^ 2 then (" KB", 10)
                    else if x <? 1024 ^ 3 then (" MB", 20)
                    else (" GB", 30))).
Proof.
  intros Hx. split.
  - intros Hsmall. unfold Format.format_size.
    destruct (x <? 1024) eqn:E; [reflexivity | apply Z.ltb_ge in E; lia].
  - intros Hbig.
    assert (Hfig := format_size_figure x (conj Hbig Hx)).
    assert (Hclose :
              - 2 ^ snd (Format.unit_of x) <=
              2 * (100 * x) - 2 * (2 ^ snd (Format.unit_of x) * Format.figure x)
              <= 2 ^ snd (Format.unit_of x)).
    { unfold Format.figure. apply div_half_even_close.
      destruct (unit_of_cases x) as [[H U] | [[H U] | [[H U] | [H U]]]];
        rewrite U; simpl; lia. }
    assert (Hunit :
              Format.unit_of x = (if x <? 1024 ^ 2 then (" KB", 10)
                                  else if x <? 1024 ^ 3 then (" MB", 20)
                                  else (" GB", 30))).
    { unfold Format.unit_of.
      destruct (x <? 1024) eqn:E; [apply Z.ltb_lt in E; lia | reflexivity]. }
    destruct (Format.unit_of x) as [unit scale]. simpl in *. auto.
Qed.

Lemma format_size_accurate_witness :
  Format.format_size 1536 = Some "1.50 KB" /\
  Format.format_size 999 = Some "999 B".
Proof.
  destruct (format_size_accurate 1536 eq_refl) as [_ H].
  destruct (format_size_accurate 999 eq_refl) as [H' _].
  split.
  - exact (proj1 (H ltac:(lia))).
  - exact (H' eq_refl).
Defined.

(** X11.  In KB and in MB the figure [format_size] shows lies between
    1.00 and 1024.00, and it is 1024.00, not 1.00 of the next unit, for
    the sizes that are less than half a hundredth of the unit below the
    next unit. *)
Theorem format_size_figure_range (x : Z) :
  1024 <= x < 1024 ^ 3 ->
  let (unit, scale) := Format.unit_of x in
  Format.format_size x = Some (Format.fixed2 (Format.figure x) ++ unit)%string /\
  100 <= Format.figure x <= 102400 /\
  (204799 * 2 ^ scale <= 200 * x -> Format.figure x = 102400).
Proof.
  intros Hx.
  assert (Hfig := format_size_figure x ltac:(lia)).
  assert (Hmono : forall a a' b, 0 < b -> a <= a' ->
                    Format.div_half_even a b <= Format.div_half_even a' b)
    by exact div_half_even_mono.
  assert (Hclose := div_half_even_close).
  destruct (unit_of_cases x) as [[H U] | [[H U] | [[H U] | [H U]]]];
    try lia; unfold Format.figure in *; rewrite U in *; simpl fst in *;
    simpl snd in *.
  - split; [exact Hfig|].
    assert (L := Hmono (100 * 1024) (100 * x) (2 ^ 10) ltac:(lia) ltac:(lia)).
    assert (R := Hmono (100 * x) (100 * (1024 ^ 2)) (2 ^ 10)
                   ltac:(lia) ltac:(lia)).
    change (Format.div_half_even (100 * 1024) (2 ^ 10)) with 100 in L.
    change (Format.div_half_even (100 * 1024 ^ 2) (2 ^ 10)) with 102400 in R.
    split; [lia|]. intros Hedge.
    specialize (Hclose (100 * x) (2 ^ 10) ltac:(lia)). lia.
  - split; [exact Hfig|].
    assert (L := Hmono (100 * 1024 ^ 2) (100 * x) (2 ^ 20)
                   ltac:(lia) ltac:(lia)).
    assert (R := Hmono (100 * x) (100 * (1024 ^ 3)) (2 ^ 20)
                   ltac:(lia) ltac:(lia)).
    change (Format.div_half_even (100 * 1024 ^ 2) (2 ^ 20)) with 100 in L.
    change (Format.div_half_even (100 * 1024 ^ 3) (2 ^ 20)) with 102400 in R.
    split; [lia|]. intros Hedge.
    specialize (Hclose (100 * x) (2 ^ 20) ltac:(lia)). lia.
Qed.

Lemma format_size_figure_range_witness :
  Format.format_size 1048571 = Some "1024.00 KB" /\
  Format.figure 1048571 = 102400.
Proof.
  destruct (format_size_figure_range 1048571 ltac:(lia)) as (H & _ & E).
  split; [exact H|]. apply E. vm_compute. discriminate.
Defined.

(** X12.  Of two sizes that [format_size] shows in the same unit the
    larger one never has the smaller figure. *)
Theorem format_size_monotone (x y : Z) :
  1024 <= x -> x <= y -> y < 2 ^ 53 ->
  Format.unit_of x = Format.unit_of y ->
  exists unit,
    Format.format_size x = Some (Format.fixed2 (Format.figure x) ++ unit)%string /\
    Format.format_size y = Some (Format.fixed2 (Format.figure y) ++ unit)%string /\
    Format.figure x <= Format.figure y.
Proof.
  intros Hx Hxy Hy Hunit.
  exists (fst (Format.unit_of x)).
  split; [apply format_size_figure; lia|].
  split; [rewrite Hunit; apply format_size_figure; lia|].
  unfold Format.figure. rewrite Hunit.
  apply div_half_even_mono; [|lia].
  destruct (unit_of_cases y) as [[H U] | [[H U] | [[H U] | [H U]]]];
    rewrite U; simpl; lia.
Qed.

Lemma format_size_monotone_witness :
  exists unit,
    Format.format_size 2048 = Some (Format.fixed2 200 ++ unit)%string /\
    Format.format_size 4000 = Some (Format.fixed2 391 ++ unit)%string /\
    200 <= 391.
Proof.
  exact (format_size_monotone 2048 4000 ltac:(lia) ltac:(lia) eq_refl eq_refl).
Defined.

(** ** The window: properties *)






(** X14.  In the size column the rows of the items that could not be
    read come below all others: when the file system reports byte counts,
    the row of an item with the key [error] is less than the row of every
    item of the report without it, and never the other way round. *)
Theorem lessThan_errors_below
        (inherited : Gui.index -> Gui.index -> bool)
        (fs : filesystem) (p : string)
        (entries : list DirEntry) (items : list item)
        (bad good : item) (rbad rgood : Gui.row) :
  fs p = Ok entries ->
  forallb sizes_nonneg entries = true ->
  analyze_directory fs p = Ok items ->
  In bad items -> In good items ->
  Gui.has_error bad = true -> Gui.has_error good = false ->
  Gui.row_of_item bad = Some rbad -> Gui.row_of_item good = Some rgood ->
  Gui.lessThan inherited (Gui.size_index rbad) (Gui.size_index rgood) = true /\
  Gui.lessThan inherited (Gui.size_index rgood) (Gui.size_index rbad) = false.
Proof.
  intros Hfs Hnn Han Hbad Hgood Eb Eg Rb Rg.
  assert (Hsizes := analyze_directory_sizes fs p entries items Hfs Hnn Han).
  rewrite Forall_forall in Hsizes.
  destruct (Hsizes good Hgood) as [Hpos _].
  unfold Gui.row_of_item in Rb, Rg. rewrite Eb in Rb. rewrite Eg in Rg.
  injection Rb as <-.
  destruct (Format.format_size (size good)); [|discriminate].
  injection Rg as <-.
  unfold Gui.lessThan, Gui.size_index. simpl. split.
  - apply Z.ltb_lt. lia.
  - apply Z.ltb_ge. lia.
Qed.

Lemma lessThan_errors_below_witness :
  Gui.lessThan (fun _ _ => false)
    (Gui.mkIndex 1 (Some (-1))) (Gui.mkIndex 1 (Some 10)) = true.
Proof.
  exact (proj1 (lessThan_errors_below (fun _ _ => false)
                  (mount "docs" (Ok [unreadable_file "b.txt" "docs/b.txt";
                                     regular_file "a.txt" "docs/a.txt" 10]))
                  "docs" _ _
                  (mkItem "b.txt" 0 false "docs/b.txt" (Some "权限不足"))
                  (mkItem "a.txt" 10 false "docs/a.txt" None)
                  _ _ eq_refl eq_refl eq_refl
                  (or_intror (or_introl eq_refl)) (or_introl eq_refl)
                  eq_refl eq_refl eq_refl eq_refl)).
Defined.

(** X15.  The signal of a worker whose directory cannot be listed is an
    error signal for the path of the worker, and its message names the
    directory: the text for a lack of permission when the failure is a
    [PermissionError], the text of the operating system otherwise. *)
Theorem run_unlistable (fs : filesystem) (p : string) (e : exn) :
  fs p = Raise e ->
  Gui.run fs p =
  Gui.error_signal
    (match exn_cls e with
     | PermissionError => "权限错误: 无法扫描目录 " ++ p ++ ": 权限不足"
     | OSError => "分析时出错: 无法扫描目录 " ++ p ++ ": " ++ exn_str e
     end)%string p.
Proof.
  intros H. unfold Gui.run, analyze_directory. rewrite H.
  unfold scan_error. destruct (exn_cls e); reflexivity.
Qed.

Lemma run_unlistable_witness :
  Gui.run (mount "void" (Ok [])) "gone" =
  Gui.error_signal
    "分析时出错: 无法扫描目录 gone: [Errno 2] No such file or directory: 'gone'"
    "gone".
Proof.
  exact (run_unlistable (mount "void" (Ok [])) "gone" _ eq_refl).
Defined.

Section History.

Variable normpath : string -> string.
Variable isdir : string -> bool.

Lemma navigate_to_history (path : string) (w : Gui.window) :
  Gui.path_history (Gui.navigate_to normpath isdir path w) =
  Gui.path_history w.
Proof.
  unfold Gui.navigate_to. destruct (isdir (normpath path)); reflexivity.
Qed.

Lemma navigate_to_settled (path : string) (w : Gui.window) :
  Gui.path_history w <> [] ->
  Forall (fun p => isdir p = true) (Gui.workers w) ->
  (Gui.current_path w = "" \/ In (Gui.current_path w) (Gui.workers w)) ->
  Forall (fun p => p <> "") (Gui.path_history w) ->
  Gui.settled isdir (Gui.navigate_to normpath isdir path w).
Proof.
  intros Hh Hw Hc Hne. unfold Gui.navigate_to, Gui.settled.
  destruct (isdir (normpath path)) eqn:E; simpl.
  - repeat split; auto.
    + apply Forall_app. split; [exact Hw|]. now constructor.
    + right. apply in_or_app. right. now left.
  - repeat split; auto.
Qed.

Lemma handle_settled (e : Gui.event) (w : Gui.window) :
  Gui.settled isdir w -> Gui.settled isdir (Gui.handle normpath isdir e w).
Proof.
  intros (Ha & Hb & Hc & Hd).
  destruct e as [i d | [r|] | | | s]; simpl.
  - unfold Gui.on_drive_selected.
    destruct (Z.eqb i 0 || String.eqb d Gui.placeholder).
    + repeat split; simpl; auto.
    + destruct (String.eqb_spec d ""); simpl.
      * repeat split; auto.
      * apply navigate_to_settled; simpl; auto. discriminate.
  - unfold Gui.on_item_double_click.
    destruct (String.eqb (Gui.type_text r) Gui.folder_type);
      [|repeat split; auto].
    destruct (Gui.contains Gui.inaccessible_mark (Gui.name_text r));
      [repeat split; auto|].
    destruct (String.eqb_spec (Gui.path_text r) ""); simpl;
      [repeat split; auto|].
    destruct (isdir (Gui.path_text r)); [|repeat split; auto].
    apply navigate_to_settled; simpl; auto.
    + now destruct (Gui.path_history w).
    + apply Forall_app. split; [exact Hd|]. now constructor.
  - repeat split; auto.
  - unfold Gui.go_up.
    destruct (1 <? List.length (Gui.path_history w))%nat eqn:E.
    + apply Nat.ltb_lt in E.
      assert (Hs : Gui.settled isdir
                (Gui.navigate_to normpath isdir
                   (last (removelast (Gui.path_history w)) "")
                   (Gui.mkWindow (Gui.current_path w)
                      (removelast (Gui.path_history w))
                      (Gui.path_lineedit w) (Gui.rows w) (Gui.status w)
                      (Gui.drive_enabled w) (Gui.refresh_enabled w)
                      (Gui.up_enabled w) (Gui.boxes w) (Gui.workers w)))).
      { apply navigate_to_settled; simpl; auto.
        - destruct (Gui.path_history w) as [| a [| b l]]; simpl in *;
            try lia; discriminate.
        - clear -Hd. induction (Gui.path_history w) as [| a l IH].
          + constructor.
          + inversion Hd; subst. simpl. destruct l; [constructor|].
            constructor; auto. }
      destruct Hs as (Ha' & Hb' & Hc' & Hd'). repeat split; auto.
    + repeat split; auto.
  - unfold Gui.refresh_view.
    destruct (String.eqb_spec (Gui.current_path w) ""); simpl;
      [repeat split; auto|].
    apply navigate_to_settled; auto. destruct Ha; [contradiction|assumption].
  - unfold Gui.deliver, Gui.set_controls_enabled.
    destruct s as [items p | m p]; simpl.
    + unfold Gui.update_treeview.
      destruct (negb (String.eqb p (Gui.current_path w)));
        [repeat split; auto|].
      destruct items; [repeat split; auto|].
      destruct (Gui.append_rows (i :: items) []). repeat split; auto.
    + unfold Gui.show_error.
      destruct (String.eqb p (Gui.current_path w)); repeat split; auto.
Qed.

End History.

(** X16.  Whatever the user does and whatever the workers report, from
    the start of the window on: a directory is shown only while the
    history holds a place, no place of the history is the empty path, a
    worker is started only on a path that is a directory, and the
    directory shown is one a worker was started on. *)
Theorem window_settled
        (normpath : string -> string) (isdir : string -> bool)
        (events : list Gui.event) :
  Gui.settled isdir (Gui.after normpath isdir events Gui.initial).
Proof.
  unfold Gui.after.
  assert (H : Gui.settled isdir Gui.initial)
    by (repeat split; simpl; auto).
  revert H. generalize Gui.initial as w.
  induction events as [| e rest IH]; intros w H; simpl.
  - exact H.
  - apply IH, handle_settled, H.
Qed.

(** X17.  Going into a folder and up again leaves the history as it was:
    after a double click on the row of a folder that is a directory,
    [go_up] restores the history, shows the folder left when it still is
    a directory, and enables the button to go up exactly when the history
    holds more than one place. *)
Theorem double_click_then_up
        (normpath : string -> string) (isdir : string -> bool)
        (r : Gui.row) (w : Gui.window) :
  Gui.type_text r = Gui.folder_type ->
  Gui.contains Gui.inaccessible_mark (Gui.name_text r) = false ->
  Gui.path_text r <> "" ->
  isdir (Gui.path_text r) = true ->
  Gui.path_history w <> [] ->
  let w' :=
    Gui.go_up normpath isdir
      (Gui.on_item_double_click normpath isdir (Some r) w) in
  Gui.path_history w' = Gui.path_history w /\
  Gui.up_enabled w' = (1 <? List.length (Gui.path_history w))%nat /\
  (isdir (normpath (last (Gui.path_history w) "")) = true ->
   Gui.current_path w' = normpath (last (Gui.path_history w) "")).
Proof.
  intros Ht Hm Hp Hd Hh. cbv zeta.
  unfold Gui.on_item_double_click.
  rewrite Ht, String.eqb_refl, Hm, Hd.
  destruct (String.eqb_spec (Gui.path_text r) ""); [contradiction|].
  simpl negb. simpl andb. cbv iota.
  set (w1 := Gui.navigate_to normpath isdir (Gui.path_text r) _).
  assert (H1 : Gui.path_history w1 = Gui.path_history w ++ [Gui.path_text r])
    by (unfold w1; now rewrite navigate_to_history).
  unfold Gui.go_up. rewrite H1.
  assert (Hlen : (1 <? List.length (Gui.path_history w ++ [Gui.path_text r]))%nat
                 = true).
  { apply Nat.ltb_lt. rewrite length_app. simpl.
    destruct (Gui.path_history w); [contradiction | simpl; lia]. }
  rewrite Hlen, removelast_last.
  set (w2 := Gui.navigate_to normpath isdir _ _).
  assert (H2 : Gui.path_history w2 = Gui.path_history w)
    by (unfold w2; now rewrite navigate_to_history).
  simpl. rewrite H2. repeat split.
  intros Hdir. unfold w2, Gui.navigate_to. rewrite Hdir. reflexivity.
Qed.

Lemma double_click_then_up_witness :
  Gui.path_history
    (Gui.go_up (fun p => p) (fun _ => true)
       (Gui.on_item_double_click (fun p => p) (fun _ => true)
          (Some (Gui.mkRow "B " "35 B" 35 Gui.folder_type "top/B"))
          (Gui.mkWindow "top" ["top"] "top" [] "" true true false [] ["top"])))
  = ["top"].
Proof.
  exact (proj1 (double_click_then_up (fun p => p) (fun _ => true)
                  (Gui.mkRow "B " "35 B" 35 Gui.folder_type "top/B")
                  (Gui.mkWindow "top" ["top"] "top" [] "" true true false []
                                ["top"])
                  eq_refl eq_refl ltac:(discriminate) eq_refl
                  ltac:(discriminate))).
Defined.
